(** * rest-api-proxy: the request-handling pipeline

    A shallow embedding of [src/config.py] (the configuration model) and
    [src/main.py] (endpoint matching, failure injection, request forwarding
    and configuration reload), followed by the properties of the pipeline.

    Conventions of the embedding.
    - A Python [str] is a [string]; each character of the model is one
      8-bit [ascii], and [str.upper] acts on the letters a-z.
    - A Python [int] is a [Z]; a finite Python [float] is the rational [Q]
      it denotes (the code only tests floats for truth and compares them).
    - [Optional[T]] is [option T]; [None] is Python's [None].
    - A pydantic model is a record with exactly the fields its class
      declares; reading an attribute by name goes through [getattr_*],
      which raises [AttributeError] for a name the class does not declare.
    - Code that mutates [self] or performs I/O runs in the monad [M]:
      a state transformer that may end in a raised exception.  A raised
      exception keeps the mutations done before it, as in Python. *)

From Stdlib Require Import ZArith QArith Qabs String Ascii List Bool Lia.
From stdpp Require Import gmap strings.
Import ListNotations.

Local Open Scope string_scope.
Local Open Scope Z_scope.

(** ** Python values and exceptions *)

#[local] Unset Elimination Schemes.
Inductive json :=
| JNull
| JBool (b : bool)
| JInt (z : Z)
| JFloat (q : Q)
| JStr (s : string)
| JList (l : list json)
| JObj (o : list (string * json)).
#[local] Set Elimination Schemes.

(** The values a field of [FailureCondition] can hold. *)
Inductive pyval :=
| VNone
| VBool (b : bool)
| VInt (z : Z)
| VFloat (q : Q)
| VStr (s : string).

(** Python's truth test, [bool(v)]. *)
Definition truthy (v : pyval) : bool :=
  match v with
  | VNone => false
  | VBool b => b
  | VInt z => negb (z =? 0)
  | VFloat q => negb (Qeq_bool q 0)
  | VStr s => negb (String.eqb s "")
  end.

Inductive exn :=
| AttributeError (cls attr : string)
| HTTPException (status_code : Z) (detail : string)
| RequestError (msg : string)
| ReError (regex : string)
| ValueError (msg : string)
| TypeError (msg : string)
| OtherException (msg : string).

Inductive Outcome (A : Type) :=
| Return (a : A)
| Raise (e : exn).
Arguments Return {A} a.
Arguments Raise {A} e.

(** ** src/config.py: the configuration model *)

Module FailureCondition.
Record t := mk {
  method : option string;
  count : option Z;
  every : option Z;
  probability : option Q;
  delay : option Z
}.
End FailureCondition.

Module FailureResponse.
Record t := mk {
  status_code : Z;
  body : option (list (string * json));
  headers : option (list (string * string))
}.
End FailureResponse.

Module FailureRule.
Record t := mk {
  condition : FailureCondition.t;
  response : FailureResponse.t
}.
End FailureRule.

Module Endpoint.
Record t := mk {
  path : string;
  methods : list string;
  debug : bool;
  failure_rules : list FailureRule.t
}.
End Endpoint.

Module Target.
Record t := mk {
  url : string;
  headers : option (list (string * string));
  endpoints : list Endpoint.t
}.
End Target.

Module ServerConfig.
Record t := mk {
  host : string;
  port : Z;
  debug : bool
}.
End ServerConfig.

Module LoggingConfig.
Record t := mk {
  level : string;
  format : string
}.
End LoggingConfig.

Module ProxyConfig.
Record t := mk {
  server : ServerConfig.t;
  logging : LoggingConfig.t;
  targets : list (string * Target.t)
}.
End ProxyConfig.

(** *** Attribute reads by name

    [condition.enabled] and [self.config.target] name attributes by a
    string that the class may or may not declare, so they are embedded as
    a lookup among the declared fields.  pydantic ignores unknown keys of
    the input document, hence an instance carries the declared fields
    only. *)

Definition of_option {A} (inj : A -> pyval) (o : option A) : pyval :=
  match o with
  | Some a => inj a
  | None => VNone
  end.

Definition getattr_FailureCondition (c : FailureCondition.t) (name : string)
  : Outcome pyval :=
  if String.eqb name "method" then
    Return (of_option VStr (FailureCondition.method c))
  else if String.eqb name "count" then
    Return (of_option VInt (FailureCondition.count c))
  else if String.eqb name "every" then
    Return (of_option VInt (FailureCondition.every c))
  else if String.eqb name "probability" then
    Return (of_option VFloat (FailureCondition.probability c))
  else if String.eqb name "delay" then
    Return (of_option VInt (FailureCondition.delay c))
  else Raise (AttributeError "FailureCondition" name).

(** What an attribute of the configuration objects can evaluate to. *)
Inductive config_attr :=
| AServerConfig (s : ServerConfig.t)
| ALoggingConfig (l : LoggingConfig.t)
| ATargetDict (d : list (string * Target.t))
| ATarget (t : Target.t).

Definition getattr_ProxyConfig (c : ProxyConfig.t) (name : string)
  : Outcome config_attr :=
  if String.eqb name "server" then Return (AServerConfig (ProxyConfig.server c))
  else if String.eqb name "logging" then
    Return (ALoggingConfig (ProxyConfig.logging c))
  else if String.eqb name "targets" then
    Return (ATargetDict (ProxyConfig.targets c))
  else Raise (AttributeError "ProxyConfig" name).

(** [obj.endpoints], [obj.url] and [obj.headers] are fields of [Target]
    alone. *)
Definition class_name (a : config_attr) : string :=
  match a with
  | AServerConfig _ => "ServerConfig"
  | ALoggingConfig _ => "LoggingConfig"
  | ATargetDict _ => "dict"
  | ATarget _ => "Target"
  end.

Definition target_field {A} (field : string) (proj : Target.t -> A)
  (a : config_attr) : Outcome A :=
  match a with
  | ATarget t => Return (proj t)
  | _ => Raise (AttributeError (class_name a) field)
  end.

(** ** Strings, as the code uses them *)

(** [c.upper()] for one character. *)
Definition upper_char (c : ascii) : ascii :=
  let n := nat_of_ascii c in
  if ((97 <=? n) && (n <=? 122))%nat then ascii_of_nat (n - 32) else c.

(** [s.upper()] *)
Fixpoint upper (s : string) : string :=
  match s with
  | EmptyString => EmptyString
  | String c s' => String (upper_char c) (upper s')
  end.

(** [c in s], for a one-character string [c]. *)
Fixpoint contains_char (c : ascii) (s : string) : bool :=
  match s with
  | EmptyString => false
  | String d s' => Ascii.eqb c d || contains_char c s'
  end.

(** [s.replace(c, by)], for a one-character string [c]. *)
Fixpoint replace_char (c : ascii) (by_ : string) (s : string) : string :=
  match s with
  | EmptyString => EmptyString
  | String d s' =>
      if Ascii.eqb c d then by_ ++ replace_char c by_ s'
      else String d (replace_char c by_ s')
  end.

(** [x in l], for a list of strings. *)
Definition in_list (x : string) (l : list string) : bool :=
  existsb (String.eqb x) l.

Definition newline : ascii := ascii_of_nat 10.

(** ** The regular expressions [_path_matches] builds

    [_path_matches] hands [re.match] the string ["^" + r + "$"], where [r]
    is the endpoint's pattern with every ["*"] replaced by [".*"].  The
    expressions interpreted here are those made of ordinary characters,
    [.] and [.*] between the two anchors.  [.] stands for any character
    but a newline, and [$] for the end of the string or the position
    before a final newline.  An expression with another special character
    is left to [re_match_other], the rest of Python's [re.match]. *)

Inductive re_item :=
| Lit (c : ascii)
| AnyChar
| AnyStar.

(** The characters special to Python's [re]. *)
Definition is_special (c : ascii) : bool :=
  contains_char c ".^$*+?{}[]\|()".

(** The part after the leading [^], up to and including the final [$]. *)
Fixpoint parse_body (s : string) : option (list re_item) :=
  match s with
  | EmptyString => None
  | String c s' =>
      if Ascii.eqb c "$" then
        match s' with
        | EmptyString => Some []
        | _ => None
        end
      else if Ascii.eqb c "." then
        match s' with
        | String d s'' =>
            if Ascii.eqb d "*" then cons AnyStar <$> parse_body s''
            else cons AnyChar <$> parse_body s'
        | EmptyString => None
        end
      else if is_special c then None
      else cons (Lit c) <$> parse_body s'
  end.

Definition parse_regex (regex : string) : option (list re_item) :=
  match regex with
  | String c body => if Ascii.eqb c "^" then parse_body body else None
  | EmptyString => None
  end.

(** [$]: at the end of the string, or just before a final newline. *)
Definition at_end (s : string) : bool :=
  match s with
  | EmptyString => true
  | String c EmptyString => Ascii.eqb c newline
  | _ => false
  end.

(** Whether the items match the whole of [s]. *)
Fixpoint match_items (items : list re_item) (s : string) : bool :=
  match items with
  | [] => at_end s
  | Lit c :: items' =>
      match s with
      | String d s' => Ascii.eqb c d && match_items items' s'
      | EmptyString => false
      end
  | AnyChar :: items' =>
      match s with
      | String d s' => negb (Ascii.eqb d newline) && match_items items' s'
      | EmptyString => false
      end
  | AnyStar :: items' =>
      (fix star (s : string) : bool :=
         match_items items' s
         || match s with
            | String d s' => negb (Ascii.eqb d newline) && star s'
            | EmptyString => false
            end) s
  end.

Section Matching.

(** [bool(re.match(regex, s))] for an expression outside the fragment
    above; it may raise [re.error]. *)
Variable re_match_other : string -> string -> Outcome bool.

(** [bool(re.match(regex, s))] *)
Definition re_match (regex s : string) : Outcome bool :=
  match parse_regex regex with
  | Some items => Return (match_items items s)
  | None => re_match_other regex s
  end.

(** [ProxyServer._path_matches] *)
Definition _path_matches (pattern path : string) : Outcome bool :=
  if String.eqb pattern "/*" then Return true
  else if contains_char "*" pattern then
    let regex_pattern := replace_char "*" ".*" pattern in
    re_match ("^" ++ regex_pattern ++ "$") path
  else Return (String.eqb pattern path).

(** [ProxyServer._method_matches] *)
Definition _method_matches (allowed_methods : list string) (method : string)
  : bool :=
  in_list "*" allowed_methods
  || in_list (upper method) (map upper allowed_methods).

(** The loop of [_find_matching_endpoint] over the endpoint list. *)
Fixpoint first_matching (endpoints : list Endpoint.t) (path method : string)
  : Outcome (option Endpoint.t) :=
  match endpoints with
  | [] => Return None
  | endpoint :: rest =>
      match _path_matches (Endpoint.path endpoint) path with
      | Raise e => Raise e
      | Return false => first_matching rest path method
      | Return true =>
          if _method_matches (Endpoint.methods endpoint) method
          then Return (Some endpoint)
          else first_matching rest path method
      end
  end.

End Matching.

(** ** The running server: requests, responses, effects and state *)

(** The inbound request, as [_handle_request] reads it: [headers] and
    [query_params] list every header line and every query parameter in
    order, repeated names included. *)
Module Request.
Record t := mk {
  method : string;
  headers : list (string * string);
  query_params : list (string * string);
  body : list Byte.byte
}.
End Request.

(** The arguments of [self.client.request]. *)
Module ClientRequest.
Record t := mk {
  method : string;
  url : string;
  headers : list (string * string);
  content : list Byte.byte;
  params : list (string * string)
}.
End ClientRequest.

(** The backend's answer, an [httpx.Response]. *)
Module ClientResponse.
Record t := mk {
  status_code : Z;
  headers : list (string * string);
  content : list Byte.byte
}.
End ClientResponse.

(** What [_handle_request] returns. *)
Inductive response :=
| JSONResponse (status_code : Z) (content : list (string * json))
    (headers : list (string * string))
| Response (content : list Byte.byte) (status_code : Z)
    (headers : list (string * string)) (media_type : option string).

(** How a body is shown in the log. *)
Inductive body_log :=
| BodyText (s : string)
| BodyBinary (len : nat)
| BodyEmpty.

(** One constructor per logging call of [src/main.py], with the values
    its message interpolates. *)
Inductive log_message :=
| ConfigReloaded
| ReloadFailed (e : exn)
| ProxyRequest (method path url : string)
| RequestHeaders (h : list (string * string))
| RequestBody (b : body_log)
| InjectingFailure (method path : string) (status_code : Z)
| SendingToBackend (method url : string)
| FinalRequestHeaders (h : list (string * string))
| QueryParameters (p : list (string * string))
| ResponseStatus (status_code : Z)
| ResponseHeaders (h : list (string * string))
| ResponseBody (b : body_log)
| RequestFailed (msg : string).

Inductive logger_method := info | warning | error.

(** The effects on the outside world, in the order they happen. *)
Inductive event :=
| Log (m : logger_method) (msg : log_message)
| Sleep (seconds : Q)
| BackendCall (r : ClientRequest.t).

(** [ProxyServer], with its [FailureInjector] and its logger's level, the
    number of draws taken from the random generator, and the effects
    performed so far. *)
Module ProxyServer.
Record t := mk {
  config : ProxyConfig.t;
  config_path : string;
  request_counts : gmap string Z;
  logger_level : Z;
  draws : nat;
  events : list event
}.

Definition set_config (c : ProxyConfig.t) (s : t) : t :=
  mk c (config_path s) (request_counts s) (logger_level s) (draws s)
    (events s).
Definition set_request_counts (m : gmap string Z) (s : t) : t :=
  mk (config s) (config_path s) m (logger_level s) (draws s) (events s).
Definition set_logger_level (l : Z) (s : t) : t :=
  mk (config s) (config_path s) (request_counts s) l (draws s) (events s).
Definition set_draws (n : nat) (s : t) : t :=
  mk (config s) (config_path s) (request_counts s) (logger_level s) n
    (events s).
Definition add_event (e : event) (s : t) : t :=
  mk (config s) (config_path s) (request_counts s) (logger_level s)
    (draws s) (events s ++ [e]).
End ProxyServer.

(** *** The monad of methods of the server *)

Definition M (A : Type) : Type :=
  ProxyServer.t -> Outcome A * ProxyServer.t.

Definition ret {A} (a : A) : M A := fun s => (Return a, s).

Definition raise {A} (e : exn) : M A := fun s => (Raise e, s).

Definition lift {A} (o : Outcome A) : M A := fun s => (o, s).

Definition bind {A B} (m : M A) (k : A -> M B) : M B :=
  fun s =>
    match m s with
    | (Return a, s') => k a s'
    | (Raise e, s') => (Raise e, s')
    end.

(** [try: m except Exception as e: h e] *)
Definition try_except {A} (m : M A) (h : exn -> M A) : M A :=
  fun s =>
    match m s with
    | (Return a, s') => (Return a, s')
    | (Raise e, s') => h e s'
    end.

Declare Scope M_scope.
Delimit Scope M_scope with M.
Notation "'let*' x ':=' m 'in' k" := (bind m (fun x => k))
  (at level 10, x name, m at level 100, k at level 200) : M_scope.
Notation "'let*' '_' ':=' m 'in' k" := (bind m (fun _ => k))
  (at level 10, m at level 100, k at level 200) : M_scope.
Local Open Scope M_scope.

Definition get {A} (proj : ProxyServer.t -> A) : M A :=
  fun s => (Return (proj s), s).

Definition modify (f : ProxyServer.t -> ProxyServer.t) : M unit :=
  fun s => (Return tt, f s).

Definition emit (e : event) : M unit := modify (ProxyServer.add_event e).

Definition logger (m : logger_method) (msg : log_message) : M unit :=
  emit (Log m msg).

(** [self.request_counts[key]] on a [defaultdict(int)]: a missing key is
    entered with 0. *)
Definition getitem_count (key : string) : M Z :=
  fun s =>
    match ProxyServer.request_counts s !! key with
    | Some n => (Return n, s)
    | None =>
        (Return 0,
         ProxyServer.set_request_counts
           (<[key := 0]> (ProxyServer.request_counts s)) s)
    end.

(** [self.request_counts[key] = v] *)
Definition setitem_count (key : string) (v : Z) : M unit :=
  modify (fun s =>
    ProxyServer.set_request_counts
      (<[key := v]> (ProxyServer.request_counts s)) s).

(** [OverflowError], whatever its message. *)
Definition OverflowError : exn := OtherException "OverflowError".

(** The longest sleep, in nanoseconds: [time.sleep] converts its argument
    to a signed 64-bit number of nanoseconds. *)
Definition sleep_limit : Q := 9223372036854775808.

(** [time.sleep(seconds)], for [seconds] computed as [delay / 1000.0], as
    the interpreter carries it out.  A length beyond [sleep_limit] in
    either direction raises [OverflowError]: in [time.sleep], or already
    in the division when the integer is beyond the floats.  A negative
    length within the limit raises [ValueError].  The argument is a whole
    number of milliseconds, so it is at least 200000 nanoseconds away
    from the limit, far more than the rounding of the floats can bridge.
    A length within the limit is handed to the operating system, which
    is taken to sleep it; some systems refuse the longest ones (Linux, a
    sleep that would end beyond the range of its clock, some 292 years),
    so what is proved of a rule that fires after a delay is proved for
    delays of [2^32 - 1] milliseconds at most. *)
Definition sleep (seconds : Q) : M unit :=
  if negb (Qle_bool (Qabs seconds * 1000000000) sleep_limit)
  then raise OverflowError
  else if Qle_bool 0 seconds then emit (Sleep seconds)
  else raise (ValueError "sleep length must be non-negative").

(** ** Dictionaries of headers

    A [dict] keeps its keys in insertion order; assigning to a key that is
    present replaces its value in place. *)

Fixpoint dict_set (k v : string) (d : list (string * string))
  : list (string * string) :=
  match d with
  | [] => [(k, v)]
  | (k', v') :: d' =>
      if String.eqb k k' then (k, v) :: d' else (k', v') :: dict_set k v d'
  end.

(** [d.update(other)], and [dict(items)] as an update of the empty dict. *)
Definition dict_update (d other : list (string * string))
  : list (string * string) :=
  fold_left (fun acc kv => dict_set (fst kv) (snd kv) acc) other d.

(** [d.get(k)] *)
Fixpoint dict_get (k : string) (d : list (string * string)) : option string :=
  match d with
  | [] => None
  | (k', v) :: d' => if String.eqb k k' then Some v else dict_get k d'
  end.

(** [dict(headers)] for the [Headers] of a request: the dict is filled
    key by key from [headers.keys()], which lists the name of every header
    line, with [headers[key]], the value of the first line of that name.
    The names are in lower case, as the server hands them over. *)
Definition dict_of_headers (headers : list (string * string))
  : list (string * string) :=
  fold_left
    (fun acc kv =>
       match dict_get (fst kv) headers with
       | Some v => dict_set (fst kv) v acc
       | None => acc
       end)
    headers [].

(** [d.pop(k, None)] *)
Definition dict_pop (k : string) (d : list (string * string))
  : list (string * string) :=
  List.filter (fun kv => negb (String.eqb k (fst kv))) d.

(** [s.rstrip(c)], for a one-character string [c]. *)
Fixpoint rstrip_char (c : ascii) (s : string) : string :=
  match s with
  | EmptyString => EmptyString
  | String d s' =>
      match rstrip_char c s' with
      | EmptyString => if Ascii.eqb c d then EmptyString else String d EmptyString
      | rest => String d rest
      end
  end.

(** ** src/main.py: FailureInjector *)

Section FailureInjector.

(** [random.random()]: the n-th value drawn since the server started. *)
Variable random_random : nat -> Q.

Definition draw_random : M Q :=
  fun s =>
    (Return (random_random (ProxyServer.draws s)),
     ProxyServer.set_draws (S (ProxyServer.draws s)) s).

(** [condition.method and condition.method.upper() != method.upper()] *)
Definition method_differs (condition : FailureCondition.t) (method : string)
  : bool :=
  match FailureCondition.method condition with
  | Some m =>
      truthy (VStr m) && negb (String.eqb (upper m) (upper method))
  | None => false
  end.

(** [should_inject_failure] from its method test to its end: what runs
    once the [enabled] test is passed. *)
Definition constraint_checks (condition : FailureCondition.t)
  (method path : string) : M bool :=
  if method_differs condition method then ret false
  else
    let key := method ++ ":" ++ path in
    let* n := getitem_count key in
    let* _ := setitem_count key (n + 1) in
    let* wrong_count :=
      match FailureCondition.count condition with
      | Some c =>
          if truthy (VInt c) then
            let* v := getitem_count key in ret (negb (v =? c))
          else ret false
      | None => ret false
      end in
    if wrong_count then ret false
    else
      let* wrong_turn :=
        match FailureCondition.every condition with
        | Some e =>
            if truthy (VInt e) then
              let* v := getitem_count key in ret (negb (v mod e =? 0))
            else ret false
        | None => ret false
        end in
      if wrong_turn then ret false
      else
        let* unlucky :=
          match FailureCondition.probability condition with
          | Some p =>
              if truthy (VFloat p) then
                let* r := draw_random in ret (negb (Qle_bool r p))
              else ret false
          | None => ret false
          end in
        if unlucky then ret false
        else
          let* _ :=
            match FailureCondition.delay condition with
            | Some d =>
                if truthy (VInt d) then sleep (inject_Z d / 1000)
                else ret tt
            | None => ret tt
            end in
          ret true.

(** [FailureInjector.should_inject_failure] *)
Definition should_inject_failure (rule : FailureRule.t)
  (method path : string) : M bool :=
  let condition := FailureRule.condition rule in
  let* enabled := lift (getattr_FailureCondition condition "enabled") in
  if negb (truthy enabled) then ret false
  else constraint_checks condition method path.

End FailureInjector.

(** ** src/main.py: ProxyServer *)

Section Pipeline.

Variable re_match_other : string -> string -> Outcome bool.
Variable random_random : nat -> Q.

(** [self.client.request(...)]: what the backend answers to a call,
    given all that happened before it; a transport failure is a raised
    [RequestError]. *)
Variable client_request :
  list event -> ClientRequest.t -> Outcome ClientResponse.t.

(** [bytes.decode("utf-8")], [None] standing for [UnicodeDecodeError]. *)
Variable utf8_decode : list Byte.byte -> option string.

(** [ProxyServer._find_matching_endpoint] *)
Definition _find_matching_endpoint (path method : string)
  : M (option Endpoint.t) :=
  let* cfg := get ProxyServer.config in
  let* target := lift (getattr_ProxyConfig cfg "target") in
  let* endpoints :=
    lift (target_field "endpoints" Target.endpoints target) in
  lift (first_matching re_match_other endpoints path method).

(** The text logged for a non-empty body. *)
Definition body_preview (body : list Byte.byte) : body_log :=
  match utf8_decode body with
  | Some body_str =>
      if (1000 <? String.length body_str)%nat
      then BodyText (substring 0 1000 body_str ++ "... (truncated)")
      else BodyText body_str
  | None => BodyBinary (List.length body)
  end.

(** The loop of [_handle_request] over [endpoint.failure_rules];
    [injector] is [self.failure_injector.should_inject_failure]. *)
Fixpoint inject_first (injector : FailureRule.t -> string -> string -> M bool)
  (rules : list FailureRule.t) (method path : string)
  : M (option response) :=
  match rules with
  | [] => ret None
  | rule :: rest =>
      let* fire := injector rule method path in
      if fire then
        let response := FailureRule.response rule in
        let* _ :=
          logger warning
            (InjectingFailure method path
               (FailureResponse.status_code response)) in
        ret (Some (JSONResponse
                     (FailureResponse.status_code response)
                     (default [] (FailureResponse.body response))
                     (default [] (FailureResponse.headers response))))
      else inject_first injector rest method path
  end.

Definition client_call (r : ClientRequest.t) : M ClientResponse.t :=
  fun s =>
    (client_request (ProxyServer.events s) r,
     ProxyServer.add_event (BackendCall r) s).

(** [try: m except httpx.RequestError as e: h str(e)] *)
Definition try_except_RequestError {A} (m : M A) (h : string -> M A)
  : M A :=
  fun s =>
    match m s with
    | (Raise (RequestError msg), s') => h msg s'
    | r => r
    end.

(** [_handle_request] after the failure rules: the call to the backend
    and the relayed response. *)
Definition forward (endpoint : Endpoint.t) (target : config_attr)
  (request : Request.t) (path method : string) (body : list Byte.byte)
  : M response :=
  let headers := dict_of_headers (Request.headers request) in
  let* target_headers :=
    lift (target_field "headers" Target.headers target) in
  let headers :=
    match target_headers with
    | Some (h :: hs) => dict_update headers (h :: hs)
    | _ => headers
    end in
  let headers := dict_pop "host" headers in
  let* url := lift (target_field "url" Target.url target) in
  let target_url := rstrip_char "/" url ++ path in
  let* _ :=
    if Endpoint.debug endpoint then
      let* _ := logger info (SendingToBackend method target_url) in
      let* _ := logger info (FinalRequestHeaders headers) in
      match Request.query_params request with
      | [] => ret tt
      | params => logger info (QueryParameters (dict_update [] params))
      end
    else ret tt in
  try_except_RequestError
    (let* response :=
       client_call
         (ClientRequest.mk method target_url headers body
            (dict_update [] (Request.query_params request))) in
     let* _ :=
       if Endpoint.debug endpoint then
         let* _ :=
           logger info
             (ResponseStatus (ClientResponse.status_code response)) in
         let* _ :=
           logger info (ResponseHeaders (ClientResponse.headers response)) in
         match ClientResponse.content response with
         | [] => ret tt
         | content => logger info (ResponseBody (body_preview content))
         end
       else ret tt in
     let response_headers :=
       dict_update [] (ClientResponse.headers response) in
     let response_headers := dict_pop "content-encoding" response_headers in
     let response_headers := dict_pop "transfer-encoding" response_headers in
     let response_headers := dict_pop "content-length" response_headers in
     ret (Response
            (ClientResponse.content response)
            (ClientResponse.status_code response)
            response_headers
            (dict_get "content-type" (ClientResponse.headers response))))
    (fun msg =>
       let* _ := logger error (RequestFailed msg) in
       raise (HTTPException 502 ("Bad Gateway: " ++ msg))).

(** [_handle_request] once [endpoint] and [target] are bound; [injector]
    is [self.failure_injector.should_inject_failure]. *)
Definition serve (injector : FailureRule.t -> string -> string -> M bool)
  (endpoint : option Endpoint.t) (target : config_attr)
  (request : Request.t) (path method : string) : M response :=
  match endpoint with
  | None => raise (HTTPException 404 "No matching endpoint found")
  | Some endpoint =>
      let body := Request.body request in
      let* _ :=
        if Endpoint.debug endpoint then
          let* url := lift (target_field "url" Target.url target) in
          let* _ := logger info (ProxyRequest method path url) in
          let* _ :=
            logger info (RequestHeaders (Request.headers request)) in
          match body with
          | [] => logger info (RequestBody BodyEmpty)
          | _ => logger info (RequestBody (body_preview body))
          end
        else ret tt in
      let* injected :=
        inject_first injector (Endpoint.failure_rules endpoint) method path in
      match injected with
      | Some failure => ret failure
      | None => forward endpoint target request path method body
      end
  end.

(** [ProxyServer._handle_request] *)
Definition _handle_request (request : Request.t) (full_path : string)
  : M response :=
  let path := "/" ++ full_path in
  let method := Request.method request in
  let* endpoint := _find_matching_endpoint path method in
  let* cfg := get ProxyServer.config in
  let* target := lift (getattr_ProxyConfig cfg "target") in
  serve (should_inject_failure random_random) endpoint target request path
    method.

End Pipeline.

(** *** Configuration reload *)

(** What [getattr(logging, name)] can evaluate to, as far as
    [Logger.setLevel] tells the cases apart. *)
Inductive logging_attr :=
| LInt (z : Z)
| LStr (s : string)
| LObject.

(** [logging._nameToLevel] *)
Definition _nameToLevel (name : string) : option Z :=
  if String.eqb name "CRITICAL" then Some 50
  else if String.eqb name "FATAL" then Some 50
  else if String.eqb name "ERROR" then Some 40
  else if String.eqb name "WARN" then Some 30
  else if String.eqb name "WARNING" then Some 30
  else if String.eqb name "INFO" then Some 20
  else if String.eqb name "DEBUG" then Some 10
  else if String.eqb name "NOTSET" then Some 0
  else None.

(** [self.logger.setLevel(level)] *)
Definition setLevel (level : logging_attr) : M unit :=
  match level with
  | LInt z => modify (ProxyServer.set_logger_level z)
  | LStr s =>
      match _nameToLevel s with
      | Some z => modify (ProxyServer.set_logger_level z)
      | None => raise (ValueError ("Unknown level: " ++ s))
      end
  | LObject => raise (TypeError "Level not an integer or a valid string")
  end.

Section Reload.

(** [load_config(path)] of [src/config.py]: the configuration the file
    holds when it is read, or the exception raised by a missing file, by
    the YAML parser or by the validation of the model. *)
Variable load_config : list event -> string -> Outcome ProxyConfig.t.

(** [getattr(logging, name)] *)
Variable logging_getattr : string -> Outcome logging_attr.

(** [ProxyServer.reload_config] *)
Definition reload_config : M unit :=
  try_except
    (let* path := get ProxyServer.config_path in
     let* new_config :=
       (fun s => (load_config (ProxyServer.events s) path, s)) in
     let* _ := modify (ProxyServer.set_config new_config) in
     let* _ := logger info ConfigReloaded in
     let* level :=
       lift (logging_getattr
               (LoggingConfig.level (ProxyConfig.logging new_config))) in
     setLevel level)
    (fun e => logger error (ReloadFailed e)).

End Reload.

(** ** src/config.py: load_config

    [yaml.safe_load] yields plain Python data, embedded as [yaml]; a
    mapping keeps its items in order and has each key once.  The
    expansion of environment variables rewrites the header mappings in
    place; the embedding rebuilds the document around the new values,
    which is the same as long as no two targets share one header mapping
    (a YAML alias). *)

#[local] Unset Elimination Schemes.
Inductive yaml :=
| YNull
| YBool (b : bool)
| YInt (z : Z)
| YFloat (q : Q)
| YStr (s : string)
| YSeq (l : list yaml)
| YMap (m : list (yaml * yaml)).
#[local] Set Elimination Schemes.

(** [type(v).__name__] *)
Definition type_name (v : yaml) : string :=
  match v with
  | YNull => "NoneType"
  | YBool _ => "bool"
  | YInt _ => "int"
  | YFloat _ => "float"
  | YStr _ => "str"
  | YSeq _ => "list"
  | YMap _ => "dict"
  end.

(** An exception of a class that has no constructor of its own is an
    [OtherException] whose text starts with the name of the class, as
    Python prints it. *)
Definition FileNotFoundError (msg : string) : exn :=
  OtherException ("FileNotFoundError: " ++ msg).

Definition KeyError (key : string) : exn :=
  OtherException ("KeyError: '" ++ key ++ "'").

(** [s.startswith(p)] *)
Fixpoint starts_with (p s : string) : bool :=
  match p with
  | EmptyString => true
  | String c p' =>
      match s with
      | String d s' => Ascii.eqb c d && starts_with p' s'
      | EmptyString => false
      end
  end.

(** [s.endswith(c)], for a one-character string [c]. *)
Fixpoint ends_with_char (c : ascii) (s : string) : bool :=
  match s with
  | EmptyString => false
  | String d EmptyString => Ascii.eqb c d
  | String _ s' => ends_with_char c s'
  end.

(** [p in s], for strings. *)
Fixpoint is_substring (p s : string) : bool :=
  starts_with p s
  || match s with
     | String _ s' => is_substring p s'
     | EmptyString => false
     end.

(** [except FileNotFoundError] *)
Definition is_FileNotFoundError (e : exn) : bool :=
  match e with
  | OtherException msg => starts_with "FileNotFoundError: " msg
  | _ => false
  end.

(** The value of the string key [key] in the items of a mapping. *)
Fixpoint ymap_get (key : string) (m : list (yaml * yaml)) : option yaml :=
  match m with
  | [] => None
  | (YStr k, v) :: m' => if String.eqb key k then Some v else ymap_get key m'
  | _ :: m' => ymap_get key m'
  end.

(** [d[key] = v] for a key the mapping holds. *)
Fixpoint ymap_set (key : string) (v : yaml) (m : list (yaml * yaml))
  : list (yaml * yaml) :=
  match m with
  | [] => []
  | (YStr k, v0) :: m' =>
      if String.eqb key k then (YStr k, v) :: m'
      else (YStr k, v0) :: ymap_set key v m'
  | item :: m' => item :: ymap_set key v m'
  end.

(** [config_data.get('targets', {})] *)
Definition get_targets (config_data : yaml) : Outcome yaml :=
  match config_data with
  | YMap m => Return (default (YMap []) (ymap_get "targets" m))
  | _ => Raise (AttributeError (type_name config_data) "get")
  end.

(** [v.items()] *)
Definition items (v : yaml) : Outcome (list (yaml * yaml)) :=
  match v with
  | YMap m => Return m
  | _ => Raise (AttributeError (type_name v) "items")
  end.

(** ['headers' in target_data] *)
Definition has_headers (target_data : yaml) : Outcome bool :=
  match target_data with
  | YMap m =>
      Return match ymap_get "headers" m with Some _ => true | None => false end
  | YStr s => Return (is_substring "headers" s)
  | YSeq l =>
      Return (existsb
                (fun x =>
                   match x with
                   | YStr k => String.eqb "headers" k
                   | _ => false
                   end) l)
  | _ =>
      Raise (TypeError ("argument of type '" ++ type_name target_data
                        ++ "' is not iterable"))
  end.

(** [target_data['headers']] *)
Definition get_headers (target_data : yaml) : Outcome yaml :=
  match target_data with
  | YMap m =>
      match ymap_get "headers" m with
      | Some h => Return h
      | None => Raise (KeyError "headers")
      end
  | YStr _ => Raise (TypeError "string indices must be integers")
  | YSeq _ =>
      Raise (TypeError "list indices must be integers or slices, not str")
  | _ =>
      Raise (TypeError ("'" ++ type_name target_data
                        ++ "' object is not subscriptable"))
  end.

Section Loading.

(** [os.getenv(name)] *)
Variable getenv : string -> option string.

(** The new value of one header: [os.getenv(value[2:-1], value)] for a
    string that starts with ["${"] and ends with ["}"]. *)
Definition expand_value (value : yaml) : yaml :=
  match value with
  | YStr v =>
      if starts_with "${" v && ends_with_char "}" v then
        let env_var := substring 2 (String.length v - 3) v in
        YStr (default v (getenv env_var))
      else value
  | _ => value
  end.

(** The body of the loop over the targets: the target with its headers
    expanded. *)
Definition expand_target (target_data : yaml) : Outcome yaml :=
  match has_headers target_data with
  | Raise e => Raise e
  | Return false => Return target_data
  | Return true =>
      match get_headers target_data with
      | Raise e => Raise e
      | Return headers =>
          match items headers with
          | Raise e => Raise e
          | Return header_items =>
              let expanded :=
                map (fun kv => (fst kv, expand_value (snd kv))) header_items in
              match target_data with
              | YMap m => Return (YMap (ymap_set "headers" (YMap expanded) m))
              | _ => Return target_data
              end
          end
      end
  end.

(** The loop over the targets, in order, up to the first exception. *)
Fixpoint expand_targets (targets : list (yaml * yaml))
  : Outcome (list (yaml * yaml)) :=
  match targets with
  | [] => Return []
  | (target_name, target_data) :: rest =>
      match expand_target target_data with
      | Raise e => Raise e
      | Return target_data' =>
          match expand_targets rest with
          | Raise e => Raise e
          | Return rest' => Return ((target_name, target_data') :: rest')
          end
      end
  end.

(** The expansion of environment variables in the headers of the
    document. *)
Definition expand_env (config_data : yaml) : Outcome yaml :=
  match get_targets config_data with
  | Raise e => Raise e
  | Return targets =>
      match items targets with
      | Raise e => Raise e
      | Return target_items =>
          match expand_targets target_items with
          | Raise e => Raise e
          | Return target_items' =>
              match config_data with
              | YMap m =>
                  Return (YMap (ymap_set "targets" (YMap target_items') m))
              | _ => Return config_data
              end
          end
      end
  end.

(** [Path(p).exists()] *)
Variable path_exists : string -> bool.

(** [yaml.safe_load] of the opened file. *)
Variable safe_load : string -> Outcome yaml.

(** [ProxyConfig] applied to the items of [config_data]: the validation
    of the model. *)
Variable validate : yaml -> Outcome ProxyConfig.t.

(** [load_config] *)
Definition load_config (config_path : string) : Outcome ProxyConfig.t :=
  if negb (path_exists config_path) then
    Raise (FileNotFoundError
             ("Configuration file " ++ config_path ++ " not found"))
  else
    match safe_load config_path with
    | Raise e => Raise e
    | Return config_data =>
        match expand_env config_data with
        | Raise e => Raise e
        | Return config_data' => validate config_data'
        end
    end.

(** [main], up to the construction of the server: the configuration and
    the path it gives to [ProxyServer]. *)
Definition main : Outcome (ProxyConfig.t * string) :=
  let config_path := "config.yaml" in
  match load_config config_path with
  | Return config => Return (config, config_path)
  | Raise e =>
      if is_FileNotFoundError e then
        let config_path := "config.example.yaml" in
        match load_config config_path with
        | Return config => Return (config, config_path)
        | Raise e' => Raise e'
        end
      else Raise e
  end.

End Loading.

(** ** src/main.py: ConfigReloadHandler *)

(** A file system event, as [on_modified] reads it. *)
Module FileEvent.
Record t := mk {
  is_directory : bool;
  src_path : string
}.
End FileEvent.

Section Watching.

(** [Path(p).resolve()], as a string; it raises [RuntimeError] when the
    path runs into a loop of symbolic links. *)
Variable resolve : string -> Outcome string.

Variable load_config_now : list event -> string -> Outcome ProxyConfig.t.
Variable logging_getattr : string -> Outcome logging_attr.

(** [ConfigReloadHandler.on_modified]; [handler_config_path] is the
    handler's [config_path], resolved when the handler was made. *)
Definition on_modified (handler_config_path : string) (event : FileEvent.t)
  : M unit :=
  if FileEvent.is_directory event then ret tt
  else
    let* src_path := lift (resolve (FileEvent.src_path event)) in
    if String.eqb src_path handler_config_path
    then reload_config load_config_now logging_getattr
    else ret tt.

End Watching.

(** * Vocabulary of the properties *)

(** ** Counters *)

(** The value of [request_counts[key]], 0 for a key never counted. *)
Definition counter (s : ProxyServer.t) (key : string) : Z :=
  default 0 (ProxyServer.request_counts s !! key).

(** The state once [request_counts[key] += 1] has run. *)
Definition bump (key : string) (s : ProxyServer.t) : ProxyServer.t :=
  ProxyServer.set_request_counts
    (<[key := counter s key + 1]> (ProxyServer.request_counts s)) s.

(** The key [should_inject_failure] counts under. *)
Definition key_of (method path : string) : string := method ++ ":" ++ path.

(** ** Constraints of a failure condition *)

(** The [count] and [every] constraints, read on a value of the counter. *)
Definition count_holds (c : FailureCondition.t) (v : Z) : bool :=
  match FailureCondition.count c with
  | Some n => (n =? 0) || (v =? n)
  | None => true
  end.

Definition every_holds (c : FailureCondition.t) (v : Z) : bool :=
  match FailureCondition.every c with
  | Some e => (e =? 0) || (v mod e =? 0)
  | None => true
  end.

(** The probability test lets the rule through: it is skipped, or the
    value about to be drawn does not exceed the probability. *)
Definition chance_passes (random_random : nat -> Q) (c : FailureCondition.t)
  (s : ProxyServer.t) : Prop :=
  match FailureCondition.probability c with
  | Some p =>
      Qeq_bool p 0 = true
      \/ Qle_bool (random_random (ProxyServer.draws s)) p = true
  | None => True
  end.

(** The longest delay, in milliseconds, that fits [sleep_limit]. *)
Definition widest_delay : Z := 9223372036854.

(** A delay, in milliseconds, that [time.sleep] sleeps on every system:
    some 49 days. *)
Definition longest_delay : Z := 4294967295.

(** The delay, if any, is one every system sleeps. *)
Definition delay_valid (c : FailureCondition.t) : Prop :=
  match FailureCondition.delay c with
  | Some d => 0 <= d <= longest_delay
  | None => True
  end.

(** The constraint checks alone, in the place of the injector of the rule
    loop. *)
Definition checks_of_rule (random_random : nat -> Q) (rule : FailureRule.t)
  : string -> string -> M bool :=
  constraint_checks random_random (FailureRule.condition rule).

(** The rules whose method constraint the request satisfies. *)
Definition method_allows (method : string) (rule : FailureRule.t) : bool :=
  negb (method_differs (FailureRule.condition rule) method).

(** The calls made to the backend among a list of effects. *)
Fixpoint backend_calls (evs : list event) : list ClientRequest.t :=
  match evs with
  | [] => []
  | BackendCall r :: evs' => r :: backend_calls evs'
  | _ :: evs' => backend_calls evs'
  end.

(** ** Concrete configurations and servers *)

Definition only (method : option string) (count every : option Z)
  (probability : option Q) : FailureCondition.t :=
  FailureCondition.mk method count every probability None.

Definition boom : FailureResponse.t :=
  FailureResponse.mk 500 (Some [("error", JStr "boom")]) None.

(** A configuration with one target, named [backend]. *)
Definition config_of (endpoints : list Endpoint.t) : ProxyConfig.t :=
  ProxyConfig.mk
    (ServerConfig.mk "0.0.0.0" 8000 false)
    (LoggingConfig.mk "INFO" "%(message)s")
    [("backend", Target.mk "http://localhost:9000/" None endpoints)].

(** The server as [ProxyServer.__init__] leaves it. *)
Definition started (cfg : ProxyConfig.t) : ProxyServer.t :=
  ProxyServer.mk cfg "config.yaml" ∅ 0 0 [].

Definition GET (body : list Byte.byte) : Request.t :=
  Request.mk "GET" [("host", "localhost:8000")] [] body.

(** A random generator that always draws one half. *)
Definition one_half (n : nat) : Q := 1 # 2.

(** A [re] that rejects every expression left to it. *)
Definition re_error (regex s : string) : Outcome bool := Raise (ReError regex).

(** A backend that cannot be reached. *)
Definition unreachable (evs : list event) (r : ClientRequest.t)
  : Outcome ClientResponse.t :=
  Raise (RequestError "All connection attempts failed").

(** A decoder for 7-bit text. *)
Definition decode_ascii (b : list Byte.byte) : option string :=
  if forallb (fun x => (Byte.to_nat x <? 128)%nat) b
  then Some (string_of_list_byte b)
  else None.

(** ** Sequences of invocations *)

(** The server after a sequence of invocations of
    [should_inject_failure], given as (rule, method, path). *)
Fixpoint invoke_all (random_random : nat -> Q)
  (calls : list (FailureRule.t * string * string)) (s : ProxyServer.t)
  : ProxyServer.t :=
  match calls with
  | [] => s
  | (rule, method, path) :: calls' =>
      invoke_all random_random calls'
        (snd (should_inject_failure random_random rule method path s))
  end.

(** The server after handling a sequence of requests, given as
    (request, full path); an exception ends its request only. *)
Fixpoint handle_all (re_match_other : string -> string -> Outcome bool)
  (random_random : nat -> Q)
  (client_request : list event -> ClientRequest.t -> Outcome ClientResponse.t)
  (utf8_decode : list Byte.byte -> option string)
  (requests : list (Request.t * string)) (s : ProxyServer.t)
  : ProxyServer.t :=
  match requests with
  | [] => s
  | (request, full_path) :: requests' =>
      handle_all re_match_other random_random client_request utf8_decode
        requests'
        (snd (_handle_request re_match_other random_random client_request
                utf8_decode request full_path s))
  end.

(** The server after [n] runs of the constraint checks of one condition
    for one method and path. *)
Fixpoint after_checks (random_random : nat -> Q) (n : nat)
  (c : FailureCondition.t) (method path : string) (s : ProxyServer.t)
  : ProxyServer.t :=
  match n with
  | O => s
  | S k =>
      snd (constraint_checks random_random c method path
             (after_checks random_random k c method path s))
  end.

(** ** Patterns and paths *)

(** The spec's reading of a pattern with wildcards: [path] is obtained
    from [pattern] by replacing each ["*"] with an arbitrary sequence of
    characters. *)
Inductive star_instance : string -> string -> Prop :=
| instance_end : star_instance "" ""
| instance_char (c : ascii) (pattern path : string) :
    c <> "*"%char ->
    star_instance pattern path ->
    star_instance (String c pattern) (String c path)
| instance_star (fill pattern path : string) :
    star_instance pattern path ->
    star_instance (String "*" pattern) (fill ++ path).

(** The same, each ["*"] being replaced with a sequence of characters
    other than the newline. *)
Inductive line_instance : string -> string -> Prop :=
| line_end : line_instance "" ""
| line_char (c : ascii) (pattern path : string) :
    c <> "*"%char ->
    line_instance pattern path ->
    line_instance (String c pattern) (String c path)
| line_star (fill pattern path : string) :
    contains_char newline fill = false ->
    line_instance pattern path ->
    line_instance (String "*" pattern) (fill ++ path).

(** A pattern whose characters, the ["*"] apart, are not special to
    [re]. *)
Fixpoint ordinary (pattern : string) : bool :=
  match pattern with
  | EmptyString => true
  | String c pattern' =>
      (Ascii.eqb c "*" || negb (is_special c)) && ordinary pattern'
  end.

(** The expression an ordinary pattern stands for. *)
Fixpoint items_of (pattern : string) : list re_item :=
  match pattern with
  | EmptyString => []
  | String c pattern' =>
      (if Ascii.eqb c "*" then AnyStar else Lit c) :: items_of pattern'
  end.

(** What [_path_matches] decides, for ordinary patterns. *)
Definition path_accepted (pattern path : string) : Prop :=
  pattern = "/*"
  \/ (contains_char "*" pattern = true
      /\ (line_instance pattern path
          \/ exists path',
               path = path' ++ String newline "" /\ line_instance pattern path'))
  \/ (contains_char "*" pattern = false /\ pattern = path).

(** ** Endpoints and requests *)

(** The endpoint matches the request: its pattern matches the path and
    its methods allow the method. *)
Definition qualifies (re_match_other : string -> string -> Outcome bool)
  (path method : string) (e : Endpoint.t) : Prop :=
  _path_matches re_match_other (Endpoint.path e) path = Return true
  /\ _method_matches (Endpoint.methods e) method = true.

(** The endpoint is examined and does not match the request. *)
Definition passed_over (re_match_other : string -> string -> Outcome bool)
  (path method : string) (e : Endpoint.t) : Prop :=
  _path_matches re_match_other (Endpoint.path e) path = Return false
  \/ (_path_matches re_match_other (Endpoint.path e) path = Return true
      /\ _method_matches (Endpoint.methods e) method = false).

(** A [GET /echo] endpoint, one that answers [/fail] with [boom] on every
    request, and a server configured with each. *)
Definition echo : Endpoint.t := Endpoint.mk "/echo" ["GET"] false [].

Definition fail : Endpoint.t :=
  Endpoint.mk "/fail" ["*"] false
    [FailureRule.mk (only None None None None) boom].

(** The response an injected failure is answered with. *)
Definition response_of (rule : FailureRule.t) : response :=
  JSONResponse
    (FailureResponse.status_code (FailureRule.response rule))
    (default [] (FailureResponse.body (FailureRule.response rule)))
    (default [] (FailureResponse.headers (FailureRule.response rule))).

(** The warning logged when a rule fires. *)
Definition injection_logged (rule : FailureRule.t) (method path : string)
  : event :=
  Log warning
    (InjectingFailure method path
       (FailureResponse.status_code (FailureRule.response rule))).

(** A backend that answers every call with the same JSON document. *)
Definition answering (evs : list event) (r : ClientRequest.t)
  : Outcome ClientResponse.t :=
  Return
    (ClientResponse.mk 200
       [("content-type", "application/json"); ("content-length", "2");
        ("x-served-by", "backend")]
       [Byte.x7b; Byte.x7d]).

Definition backend_target (endpoints : list Endpoint.t) : Target.t :=
  Target.mk "http://localhost:9000/" (Some [("x-api-key", "secret")])
    endpoints.

(** ** Forwarding *)

(** The headers sent to the backend: the request's, then the target's,
    without [host]. *)
Definition outbound_headers (t : Target.t) (request : Request.t)
  : list (string * string) :=
  dict_pop "host"
    (match Target.headers t with
     | Some (h :: hs) =>
         dict_update (dict_of_headers (Request.headers request)) (h :: hs)
     | _ => dict_of_headers (Request.headers request)
     end).

(** The call made to the backend for a request. *)
Definition outbound_call (t : Target.t) (request : Request.t)
  (path method : string) (body : list Byte.byte) : ClientRequest.t :=
  ClientRequest.mk method (rstrip_char "/" (Target.url t) ++ path)
    (outbound_headers t request) body
    (dict_update [] (Request.query_params request)).

(** The headers relayed from the backend's response. *)
Definition relayed_headers (r : ClientResponse.t) : list (string * string) :=
  dict_pop "content-length"
    (dict_pop "transfer-encoding"
       (dict_pop "content-encoding"
          (dict_update [] (ClientResponse.headers r)))).

(** The three headers that frame a response. *)
Definition framing (k : string) : bool :=
  String.eqb k "content-encoding" || String.eqb k "transfer-encoding"
  || String.eqb k "content-length".

(** The string made of [n] copies of [c]. *)
Fixpoint repeat_char (c : ascii) (n : nat) : string :=
  match n with
  | O => EmptyString
  | S k => String c (repeat_char c k)
  end.

(** The server after a list of effects, in order. *)
Definition add_events (evs : list event) (s : ProxyServer.t) : ProxyServer.t :=
  fold_left (fun s e => ProxyServer.add_event e s) evs s.

(** What a debug endpoint logs before the call to the backend. *)
Definition sending_logged (endpoint : Endpoint.t) (request : Request.t)
  (call : ClientRequest.t) : list event :=
  if Endpoint.debug endpoint then
    [Log info (SendingToBackend (ClientRequest.method call)
                 (ClientRequest.url call));
     Log info (FinalRequestHeaders (ClientRequest.headers call))]
    ++ match Request.query_params request with
       | [] => []
       | params => [Log info (QueryParameters (dict_update [] params))]
       end
  else [].

(** What a debug endpoint logs of the backend's response. *)
Definition response_logged (utf8_decode : list Byte.byte -> option string)
  (endpoint : Endpoint.t) (r : ClientResponse.t) : list event :=
  if Endpoint.debug endpoint then
    [Log info (ResponseStatus (ClientResponse.status_code r));
     Log info (ResponseHeaders (ClientResponse.headers r))]
    ++ match ClientResponse.content r with
       | [] => []
       | content => [Log info (ResponseBody (body_preview utf8_decode content))]
       end
  else [].

(** The response relayed for an answer of the backend. *)
Definition relayed (r : ClientResponse.t) : response :=
  Response (ClientResponse.content r) (ClientResponse.status_code r)
    (relayed_headers r)
    (dict_get "content-type" (ClientResponse.headers r)).

(** The server without the record of its effects: configuration and its
    path, counters, logger level and number of random draws. *)
Definition core (s : ProxyServer.t)
  : ProxyConfig.t * string * gmap string Z * Z * nat :=
  (ProxyServer.config s, ProxyServer.config_path s,
   ProxyServer.request_counts s, ProxyServer.logger_level s,
   ProxyServer.draws s).

(** A backend whose client fails before any transport, with an exception
    that is no [RequestError]. *)
Definition misused (evs : list event) (r : ClientRequest.t)
  : Outcome ClientResponse.t :=
  Raise (TypeError "Invalid type for url").

(** What [answering] answers. *)
Definition the_answer : ClientResponse.t :=
  ClientResponse.mk 200
    [("content-type", "application/json"); ("content-length", "2");
     ("x-served-by", "backend")]
    [Byte.x7b; Byte.x7d].

(** ** More on the constraint checks *)

(** The probability is set and not zero: a value will be drawn. *)
Definition chance_tested (c : FailureCondition.t) : bool :=
  match FailureCondition.probability c with
  | Some p => negb (Qeq_bool p 0)
  | None => false
  end.

(** What a rule that fires sleeps. *)
Definition slept (c : FailureCondition.t) : list event :=
  match FailureCondition.delay c with
  | Some d => if d =? 0 then [] else [Sleep (inject_Z d / 1000)]
  | None => []
  end.

(** What a debug endpoint logs of a request, before the failure rules. *)
Definition request_logged (utf8_decode : list Byte.byte -> option string)
  (endpoint : Endpoint.t) (t : Target.t) (request : Request.t)
  (path method : string) : list event :=
  if Endpoint.debug endpoint then
    [Log info (ProxyRequest method path (Target.url t));
     Log info (RequestHeaders (Request.headers request));
     Log info (RequestBody
                 match Request.body request with
                 | [] => BodyEmpty
                 | body => body_preview utf8_decode body
                 end)]
  else [].

(** A configuration loader that always finds the same configuration, and
    a [logging] module that knows the usual level names. *)
Definition loading (cfg : ProxyConfig.t) (evs : list event) (path : string)
  : Outcome ProxyConfig.t := Return cfg.

Definition logging_levels (name : string) : Outcome logging_attr :=
  match _nameToLevel name with
  | Some z => Return (LInt z)
  | None => Raise (AttributeError "module" name)
  end.

Definition debug_config : ProxyConfig.t :=
  ProxyConfig.mk (ServerConfig.mk "127.0.0.1" 8080 true)
    (LoggingConfig.mk "DEBUG" "%(message)s") [].

(** ** Documents *)

(** The header mapping of a target. *)
Definition headers_of (target_data : yaml) : option (list (yaml * yaml)) :=
  match target_data with
  | YMap m =>
      match ymap_get "headers" m with
      | Some (YMap headers) => Some headers
      | _ => None
      end
  | _ => None
  end.

(** An environment with one variable, and an empty one. *)
Definition env_token (name : string) : option string :=
  if String.eqb name "API_TOKEN" then Some "s3cr3t" else None.

Definition no_env (name : string) : option string := None.

(** A document with one target, whose headers hold a placeholder. *)
Definition token_document : yaml :=
  YMap
    [(YStr "server", YMap [(YStr "port", YInt 8000)]);
     (YStr "targets",
      YMap
        [(YStr "backend",
          YMap
            [(YStr "url", YStr "http://localhost:9000");
             (YStr "headers",
              YMap
                [(YStr "Authorization", YStr "${API_TOKEN}");
                 (YStr "X-Env", YStr "${STAGE}")])])])].

(** A document whose target has a [headers] key without a value. *)
Definition blank_headers_document : yaml :=
  YMap
    [(YStr "targets",
      YMap
        [(YStr "backend",
          YMap
            [(YStr "url", YStr "http://localhost:9000");
             (YStr "headers", YNull)])])].

(** A file system that holds the given path only. *)
Definition only_file (present path : string) : bool := String.eqb path present.

(** A parser that finds the same document in every file, and a validation
    that rejects every document. *)
Definition parsing (doc : yaml) (path : string) : Outcome yaml := Return doc.

Definition rejecting (doc : yaml) : Outcome ProxyConfig.t :=
  Raise (ValueError "validation error for ProxyConfig").

Definition accepting (doc : yaml) : Outcome ProxyConfig.t :=
  Return debug_config.

(** A target whose headers hold two placeholders. *)
Definition token_target : yaml :=
  YMap
    [(YStr "url", YStr "http://localhost:9000");
     (YStr "headers",
      YMap
        [(YStr "Authorization", YStr "${API_TOKEN}");
         (YStr "X-Env", YStr "${STAGE}")])].

(** ** Debug logging *)

(** The server with another record of effects. *)
Definition set_events (evs : list event) (s : ProxyServer.t) : ProxyServer.t :=
  ProxyServer.mk (ProxyServer.config s) (ProxyServer.config_path s)
    (ProxyServer.request_counts s) (ProxyServer.logger_level s)
    (ProxyServer.draws s) evs.

(** The effects other than log lines. *)
Fixpoint unlogged (evs : list event) : list event :=
  match evs with
  | [] => []
  | Log _ _ :: evs' => unlogged evs'
  | e :: evs' => e :: unlogged evs'
  end.

(** The endpoint with its [debug] flag set to [b]. *)
Definition with_debug (b : bool) (e : Endpoint.t) : Endpoint.t :=
  Endpoint.mk (Endpoint.path e) (Endpoint.methods e) b
    (Endpoint.failure_rules e).

(** A backend that answers like [answering] and cannot see the log. *)
Definition blind_backend (evs : list event) (r : ClientRequest.t)
  : Outcome ClientResponse.t :=
  answering (unlogged evs) r.

(** The condition without its probability. *)
Definition without_probability (c : FailureCondition.t) : FailureCondition.t :=
  FailureCondition.mk (FailureCondition.method c) (FailureCondition.count c)
    (FailureCondition.every c) None (FailureCondition.delay c).

(** * Properties *)

(** ** The two undeclared attributes *)

Lemma getattr_enabled (c : FailureCondition.t) :
  getattr_FailureCondition c "enabled"
  = Raise (AttributeError "FailureCondition" "enabled").
Proof. reflexivity. Qed.

Lemma getattr_target (c : ProxyConfig.t) :
  getattr_ProxyConfig c "target" = Raise (AttributeError "ProxyConfig" "target").
Proof. reflexivity. Qed.

Lemma increment_runs {A} (key : string) (k : unit -> M A) (s : ProxyServer.t) :
  bind (getitem_count key) (fun n => bind (setitem_count key (n + 1)) k) s
  = k tt (bump key s).
Proof.
  unfold bind, getitem_count, setitem_count, modify, bump, counter.
  destruct (ProxyServer.request_counts s !! key) as [n|] eqn:E; simpl.
  - reflexivity.
  - unfold ProxyServer.set_request_counts; simpl.
    now rewrite insert_insert_eq.
Qed.

Lemma getitem_after_bump (key : string) (s : ProxyServer.t) :
  getitem_count key (bump key s) = (Return (counter s key + 1), bump key s).
Proof.
  unfold getitem_count, bump; simpl. now rewrite lookup_insert_eq.
Qed.

Lemma counter_bump (key : string) (s : ProxyServer.t) :
  counter (bump key s) key = counter s key + 1.
Proof. unfold counter, bump; simpl. now rewrite lookup_insert_eq. Qed.

Lemma counter_bump_other (key key' : string) (s : ProxyServer.t) :
  key <> key' -> counter (bump key s) key' = counter s key'.
Proof.
  intros H. unfold counter, bump; simpl. now rewrite lookup_insert_ne.
Qed.

(** ** The rule loop *)

Lemma inject_first_cons injector rule rules method path s :
  inject_first injector (rule :: rules) method path s
  = match injector rule method path s with
    | (Return true, s1) =>
        (Return
           (Some (JSONResponse
                    (FailureResponse.status_code (FailureRule.response rule))
                    (default [] (FailureResponse.body (FailureRule.response rule)))
                    (default []
                       (FailureResponse.headers (FailureRule.response rule))))),
         ProxyServer.add_event
           (Log warning
              (InjectingFailure method path
                 (FailureResponse.status_code (FailureRule.response rule))))
           s1)
    | (Return false, s1) => inject_first injector rules method path s1
    | (Raise e, s1) => (Raise e, s1)
    end.
Proof.
  simpl. unfold bind.
  destruct (injector rule method path s) as [[[|]|e] s1]; reflexivity.
Qed.

(** ** The constraint checks of the failure injector *)

Lemma sleep_length_valid (d : Z) :
  0 <= d -> Qle_bool 0 (inject_Z d / 1000) = true.
Proof.
  intros H. apply Qle_bool_iff. unfold Qle, Qdiv, Qmult, Qinv, inject_Z.
  simpl. lia.
Qed.

(** In milliseconds, the limit of [time.sleep] is [widest_delay]. *)
Lemma sleep_length_in_range (d : Z) :
  Qle_bool (Qabs (inject_Z d / 1000) * 1000000000) sleep_limit
  = (Z.abs d <=? widest_delay).
Proof.
  unfold sleep_limit, widest_delay.
  destruct (Z.leb_spec (Z.abs d) 9223372036854) as [H|H].
  - apply Qle_bool_iff.
    unfold Qle, Qabs, Qdiv, Qmult, Qinv, inject_Z. simpl. lia.
  - destruct (Qle_bool _ _) eqn:E; [| reflexivity].
    apply Qle_bool_iff in E.
    unfold Qle, Qabs, Qdiv, Qmult, Qinv, inject_Z in E. simpl in E. lia.
Qed.

Lemma sleep_length_sign (d : Z) :
  Qle_bool 0 (inject_Z d / 1000) = (0 <=? d).
Proof.
  destruct (Z.leb_spec 0 d) as [H|H].
  - now apply sleep_length_valid.
  - destruct (Qle_bool _ _) eqn:E; [| reflexivity].
    apply Qle_bool_iff in E.
    unfold Qle, Qdiv, Qmult, Qinv, inject_Z in E. simpl in E. lia.
Qed.

Ltac sleep_sign :=
  match goal with
  | E : Qle_bool 0 ?q = _,
    D : FailureCondition.delay _ = Some ?d |- _ =>
      change q with (inject_Z d / 1000)%Q in E;
      rewrite sleep_length_sign in E;
      (apply Z.leb_gt in E || apply Z.leb_le in E)
  end.

Ltac sleep_range :=
  match goal with
  | E : Qle_bool ?q sleep_limit = _,
    D : FailureCondition.delay _ = Some ?d |- _ =>
      change q with (Qabs (inject_Z d / 1000) * 1000000000)%Q in E;
      rewrite sleep_length_in_range in E;
      unfold widest_delay, longest_delay in *;
      (apply Z.leb_gt in E || apply Z.leb_le in E)
  end.

Ltac case_step :=
  match goal with
  | |- context [getitem_count _ (bump _ _)] => rewrite getitem_after_bump
  | |- context [match ?x with _ => _ end] =>
      match type of x with
      | option _ => destruct x eqn:?
      | bool => destruct x eqn:?
      end
  end.

Ltac settle :=
  repeat match goal with
         | E : negb _ = true |- _ => apply negb_true_iff in E
         | E : negb _ = false |- _ => apply negb_false_iff in E
         end;
  repeat match goal with
         | E : ?a = _ |- context [?a] => rewrite E
         end;
  simpl; rewrite ?orb_true_r; try reflexivity.

Ltac enter_checks H :=
  unfold constraint_checks; rewrite H, increment_runs;
  unfold bind, ret, draw_random, sleep, emit, modify, raise, truthy.

Section Checks.

Variable random_random : nat -> Q.

Lemma checks_skip c method path s :
  method_differs c method = true ->
  constraint_checks random_random c method path s = (Return false, s).
Proof. intros H. unfold constraint_checks. now rewrite H. Qed.

(** Past the method test the counter of the key is incremented once,
    whatever the outcome, and no other counter changes. *)
Lemma checks_count c method path s :
  method_differs c method = false ->
  ProxyServer.request_counts
    (snd (constraint_checks random_random c method path s))
  = <[key_of method path := counter s (key_of method path) + 1]>
      (ProxyServer.request_counts s).
Proof.
  intros H. enter_checks H. repeat (case_step; simpl); reflexivity.
Qed.

(** A rule fires only if its [count] and [every] constraints hold of the
    counter's value after the increment. *)
Lemma checks_fire c method path s :
  fst (constraint_checks random_random c method path s) = Return true ->
  method_differs c method = false
  /\ count_holds c (counter s (key_of method path) + 1) = true
  /\ every_holds c (counter s (key_of method path) + 1) = true.
Proof.
  destruct (method_differs c method) eqn:H.
  - rewrite checks_skip by assumption. discriminate.
  - enter_checks H. unfold count_holds, every_holds, key_of.
    repeat (case_step; simpl); intros; try discriminate;
      repeat split; settle.
Qed.

(** With the method constraint satisfied, the random draw (if any) not
    above the probability and a delay that can be slept, a rule fires
    exactly when [count] and [every] hold of the incremented counter. *)
Lemma checks_outcome c method path s :
  method_differs c method = false ->
  chance_passes random_random c s ->
  delay_valid c ->
  fst (constraint_checks random_random c method path s)
  = Return (count_holds c (counter s (key_of method path) + 1)
            && every_holds c (counter s (key_of method path) + 1)).
Proof.
  intros H Hp Hd. enter_checks H.
  unfold count_holds, every_holds, chance_passes, delay_valid, key_of in *.
  repeat (case_step; simpl); settle;
    try (destruct Hp; congruence);
    try (rewrite sleep_length_valid in * by lia; discriminate);
    try (sleep_range; lia).
Qed.

(** The counter after the checks, in one equation. *)
Lemma checks_counter c method path s :
  counter (snd (constraint_checks random_random c method path s))
    (key_of method path)
  = counter s (key_of method path)
    + (if method_differs c method then 0 else 1).
Proof.
  destruct (method_differs c method) eqn:H.
  - rewrite checks_skip by assumption. simpl. lia.
  - unfold counter at 1. rewrite checks_count by assumption.
    now rewrite lookup_insert_eq.
Qed.

Lemma checks_counter_other c method path s key :
  key <> key_of method path ->
  counter (snd (constraint_checks random_random c method path s)) key
  = counter s key.
Proof.
  intros Hk. destruct (method_differs c method) eqn:H.
  - now rewrite checks_skip by assumption.
  - unfold counter at 1. rewrite checks_count by assumption.
    now rewrite lookup_insert_ne by congruence.
Qed.

Lemma loop_counter_bounds rules method path s :
  counter s (key_of method path)
  <= counter (snd (inject_first (checks_of_rule random_random) rules method path s))
       (key_of method path)
  <= counter s (key_of method path) + Z.of_nat (length rules).
Proof.
  revert s. induction rules as [|rule rules IH]; intros s.
  - simpl. lia.
  - rewrite inject_first_cons.
    pose proof (checks_counter (FailureRule.condition rule) method path s)
      as Hc.
    change ((checks_of_rule random_random) rule method path s)
      with (constraint_checks random_random (FailureRule.condition rule)
              method path s).
    destruct (constraint_checks _ _ _ _ s) as [[[|]|e] s1];
      cbn [fst snd length] in *;
      [ change (counter (ProxyServer.add_event _ s1) ?k) with (counter s1 k)
      | specialize (IH s1) | ];
      destruct (method_differs _ _); lia.
Qed.

(** When no rule fires, each rule whose method constraint is satisfied
    has incremented the counter once. *)
Lemma loop_counter_none rules method path s :
  fst (inject_first (checks_of_rule random_random) rules method path s) = Return None ->
  counter (snd (inject_first (checks_of_rule random_random) rules method path s))
    (key_of method path)
  = counter s (key_of method path)
    + Z.of_nat (length (List.filter (method_allows method) rules)).
Proof.
  revert s. induction rules as [|rule rules IH]; intros s.
  - simpl. lia.
  - rewrite inject_first_cons.
    pose proof (checks_counter (FailureRule.condition rule) method path s)
      as Hc.
    change ((checks_of_rule random_random) rule method path s)
      with (constraint_checks random_random (FailureRule.condition rule)
              method path s).
    destruct (constraint_checks _ _ _ _ s) as [[[|]|e] s1];
      cbn [fst snd] in *; try discriminate.
    intros Hn. rewrite (IH s1 Hn), Hc. cbn [List.filter]. unfold method_allows at 2.
    destruct (method_differs _ _); cbn [negb length]; lia.
Qed.

End Checks.

(** ** The failure injector as a whole *)

(** C10: [should_inject_failure] reads [condition.enabled] before any
    constraint, and [FailureCondition] declares no such field: every
    invocation raises [AttributeError] and leaves the server as it was, so
    the rule loop never injects a failure and no sequence of invocations
    ever increments a counter. *)
Theorem should_inject_failure_raises (random_random : nat -> Q) :
  (forall rule method path s,
      should_inject_failure random_random rule method path s
      = (Raise (AttributeError "FailureCondition" "enabled"), s))
  /\ (forall rules method path s failure,
         fst (inject_first (should_inject_failure random_random)
                rules method path s) <> Return (Some failure))
  /\ (forall calls s, invoke_all random_random calls s = s).
Proof.
  assert (E : forall rule method path s,
             should_inject_failure random_random rule method path s
             = (Raise (AttributeError "FailureCondition" "enabled"), s))
    by reflexivity.
  split; [exact E | split].
  - intros [|rule rules] method path s failure.
    + discriminate.
    + rewrite inject_first_cons, E. discriminate.
  - induction calls as [|[[rule method] path] calls IH]; intros s.
    + reflexivity.
    + cbn [invoke_all]. rewrite E. apply IH.
Qed.

(** ** What the constraint checks decide *)

Section Decisions.

Variable random_random : nat -> Q.

Lemma counter_after_checks n c method path s :
  method_differs c method = false ->
  counter (after_checks random_random n c method path s) (key_of method path)
  = counter s (key_of method path) + Z.of_nat n.
Proof.
  intros H. induction n as [|n IH].
  - simpl. lia.
  - cbn [after_checks]. rewrite checks_counter, IH, H. lia.
Qed.

(** A rule with [count] set fires only on the invocation that brings the
    counter to that value. *)
Lemma count_fires_at_count c n method path s :
  FailureCondition.count c = Some n -> n <> 0 ->
  fst (constraint_checks random_random c method path s) = Return true ->
  counter (snd (constraint_checks random_random c method path s))
    (key_of method path) = n.
Proof.
  intros Hc Hn Hf. apply checks_fire in Hf as (Hm & Hcount & _).
  rewrite checks_counter, Hm. unfold count_holds in Hcount.
  rewrite Hc in Hcount. apply orb_true_iff in Hcount as [E|E]; lia.
Qed.

(** A rule with [every] set fires only when the incremented counter is a
    multiple of it. *)
Lemma every_fires_on_multiples c e method path s :
  FailureCondition.every c = Some e -> e <> 0 ->
  fst (constraint_checks random_random c method path s) = Return true ->
  counter (snd (constraint_checks random_random c method path s))
    (key_of method path) mod e = 0.
Proof.
  intros He Hn Hf. apply checks_fire in Hf as (Hm & _ & Hevery).
  rewrite checks_counter, Hm. unfold every_holds in Hevery.
  rewrite He in Hevery. apply orb_true_iff in Hevery as [E|E]; lia.
Qed.

(** A rule with nothing but [every] set fires exactly when the incremented
    counter is a multiple of it. *)
Lemma every_alone_decides e method path s :
  e <> 0 ->
  fst (constraint_checks random_random (only None None (Some e) None)
         method path s)
  = Return (counter
              (snd (constraint_checks random_random
                      (only None None (Some e) None) method path s))
              (key_of method path) mod e =? 0).
Proof.
  intros He. rewrite checks_outcome, checks_counter by (reflexivity || exact I).
  cbn. destruct (Z.eqb_spec e 0) as [E|_]; [contradiction | reflexivity].
Qed.

(** Hence on a fresh key it fires on the 2nd, 4th, 6th, ... invocation. *)
Lemma every_2_turns n method path s :
  counter s (key_of method path) = 0 ->
  fst (constraint_checks random_random (only None None (Some 2) None)
         method path
         (after_checks random_random n (only None None (Some 2) None)
            method path s))
  = Return (Nat.even (S n)).
Proof.
  intros H0. rewrite every_alone_decides by lia.
  rewrite checks_counter, counter_after_checks, H0 by reflexivity.
  cbn [method_differs only FailureCondition.method]. f_equal.
  replace (0 + Z.of_nat n + 1) with (Z.of_nat (S n)) by lia.
  destruct (Nat.even (S n)) eqn:E.
  - apply Nat.even_spec in E as [k Hk]. rewrite Hk.
    apply Z.eqb_eq. rewrite Nat2Z.inj_mul, Z.mul_comm. now apply Z.mod_mul.
  - apply Z.eqb_neq. intros Hm.
    assert (Nat.even (S n) = true); [| congruence].
    apply Z.mod_divide in Hm as [q Hq]; [| lia].
    apply Nat.even_spec. exists (Z.to_nat q). lia.
Qed.

(** A probability of one never vetoes: with draws in [0, 1), only the
    other constraints decide. *)
Lemma probability_1_decides c method path s :
  (forall n, random_random n < 1)%Q ->
  FailureCondition.probability c = Some 1%Q ->
  method_differs c method = false ->
  delay_valid c ->
  fst (constraint_checks random_random c method path s)
  = Return (count_holds c (counter s (key_of method path) + 1)
            && every_holds c (counter s (key_of method path) + 1)).
Proof.
  intros Hr Hp Hm Hd. apply checks_outcome; try assumption.
  unfold chance_passes. rewrite Hp. right.
  apply Qle_bool_iff, Qlt_le_weak, Hr.
Qed.

(** A probability of zero is not tested at all: the rule fires whenever
    its other constraints hold. *)
Lemma probability_0_decides c method path s :
  FailureCondition.probability c = Some 0%Q ->
  method_differs c method = false ->
  delay_valid c ->
  fst (constraint_checks random_random c method path s)
  = Return (count_holds c (counter s (key_of method path) + 1)
            && every_holds c (counter s (key_of method path) + 1)).
Proof.
  intros Hp Hm Hd. apply checks_outcome; try assumption.
  unfold chance_passes. rewrite Hp. now left.
Qed.

End Decisions.

(** C1, at a rule with [every=2] invoked twice for [GET /x] on a server
    just started: the second invocation should return true.  It raises
    [AttributeError] on [condition.enabled], as the first did, and the
    counter of [GET:/x] is still 0; the constraint checks that follow the
    [enabled] test, run twice, answer false then true and leave the
    counter at 2. *)
Theorem every_2_second_invocation (random_random : nat -> Q) :
  let rule := FailureRule.mk (only None None (Some 2) None) boom in
  let s0 := started (config_of []) in
  let first := should_inject_failure random_random rule "GET" "/x" s0 in
  let second :=
    should_inject_failure random_random rule "GET" "/x" (snd first) in
  let checked1 :=
    constraint_checks random_random (FailureRule.condition rule)
      "GET" "/x" s0 in
  let checked2 :=
    constraint_checks random_random (FailureRule.condition rule)
      "GET" "/x" (snd checked1) in
  fst second = Raise (AttributeError "FailureCondition" "enabled")
  /\ counter (snd second) "GET:/x" = 0
  /\ fst checked1 = Return false
  /\ fst checked2 = Return true
  /\ counter (snd checked2) "GET:/x" = 2.
Proof. repeat split; reflexivity. Qed.

(** C3, at a rule with [probability=1] and no other constraint, invoked
    for [GET /x]: it should fire.  It raises [AttributeError] on
    [condition.enabled].  Past that test, moreover, a rule with
    [probability=0] fires: zero is false in [if condition.probability],
    so no value is drawn and nothing vetoes the injection. *)
Theorem probability_1_invocation (random_random : nat -> Q) :
  let s0 := started (config_of []) in
  should_inject_failure random_random
    (FailureRule.mk (only None None None (Some 1%Q)) boom) "GET" "/x" s0
  = (Raise (AttributeError "FailureCondition" "enabled"), s0)
  /\ fst (constraint_checks random_random (only None None None (Some 0%Q))
            "GET" "/x" s0) = Return true
  /\ ProxyServer.draws
       (snd (constraint_checks random_random (only None None None (Some 0%Q))
               "GET" "/x" s0)) = 0%nat.
Proof. repeat split; reflexivity. Qed.

(** ** Increments of the shared counter *)

(** C2, at a rule without constraints invoked for [GET /x] on a server
    just started: the counter of [GET:/x] should go from 0 to 1.  The
    invocation raises [AttributeError] on [condition.enabled], before the
    increment, and the counter is still 0; so it is after a request
    evaluated against two rules.  The constraint checks that follow the
    [enabled] test increment the counter once per rule checked: once for
    the one rule, and twice for a request that neither of two rules
    fires on. *)
Theorem unconstrained_rule_invocation (random_random : nat -> Q) :
  let rule := FailureRule.mk (only None None None None) boom in
  let quiet := FailureRule.mk (only None (Some 5) None None) boom in
  let s0 := started (config_of []) in
  should_inject_failure random_random rule "GET" "/x" s0
  = (Raise (AttributeError "FailureCondition" "enabled"), s0)
  /\ counter (snd (should_inject_failure random_random rule "GET" "/x" s0))
       "GET:/x" = 0
  /\ counter
       (snd (inject_first (should_inject_failure random_random)
               [quiet; quiet] "GET" "/x" s0)) "GET:/x" = 0
  /\ counter
       (snd (constraint_checks random_random (FailureRule.condition rule)
               "GET" "/x" s0)) "GET:/x" = 1
  /\ fst (inject_first (checks_of_rule random_random) [quiet; quiet]
            "GET" "/x" s0) = Return None
  /\ counter
       (snd (inject_first (checks_of_rule random_random) [quiet; quiet]
               "GET" "/x" s0)) "GET:/x" = 2.
Proof. repeat split; reflexivity. Qed.

(** ** Path patterns *)

Lemma append_cons c (s1 s2 : string) : String c s1 ++ s2 = String c (s1 ++ s2).
Proof. reflexivity. Qed.

Lemma append_empty (s : string) : "" ++ s = s.
Proof. reflexivity. Qed.

Lemma contains_char_app c s1 s2 :
  contains_char c (s1 ++ s2) = contains_char c s1 || contains_char c s2.
Proof.
  induction s1 as [|d s1 IH].
  - reflexivity.
  - rewrite append_cons. cbn [contains_char]. now rewrite IH, orb_assoc.
Qed.

Lemma append_assoc (s1 s2 s3 : string) : (s1 ++ s2) ++ s3 = s1 ++ (s2 ++ s3).
Proof.
  induction s1 as [|c s1 IH]; [reflexivity |].
  now rewrite !append_cons, IH.
Qed.

(** A character that is not special is neither [$] nor [.] nor [*]. *)
Lemma not_special c :
  is_special c = false ->
  Ascii.eqb c "$" = false /\ Ascii.eqb c "." = false /\ Ascii.eqb c "*" = false.
Proof.
  unfold is_special. cbn [contains_char]. intros H.
  repeat (apply orb_false_iff in H as [? H]). auto.
Qed.

(** The expression built from an ordinary pattern is in the interpreted
    fragment. *)
Lemma parse_body_ordinary pattern :
  ordinary pattern = true ->
  parse_body (replace_char "*" ".*" pattern ++ "$") = Some (items_of pattern).
Proof.
  induction pattern as [|c pattern IH]; intros H.
  - reflexivity.
  - cbn [ordinary] in H. apply andb_true_iff in H as [Hc Ho].
    specialize (IH Ho). cbn [replace_char items_of].
    rewrite (Ascii.eqb_sym "*" c).
    destruct (Ascii.eqb c "*") eqn:E.
    + rewrite !append_cons, append_empty. cbn [parse_body].
      change (Ascii.eqb "." "$") with false.
      change (Ascii.eqb "." ".") with true.
      change (Ascii.eqb "*" "*") with true.
      cbv iota. now rewrite IH.
    + cbn [orb negb] in Hc. apply negb_true_iff in Hc.
      destruct (not_special c Hc) as (H1 & H2 & _).
      rewrite append_cons. cbn [parse_body]. rewrite H1, H2, Hc, IH.
      reflexivity.
Qed.

Lemma parse_regex_ordinary pattern :
  ordinary pattern = true ->
  parse_regex ("^" ++ replace_char "*" ".*" pattern ++ "$")
  = Some (items_of pattern).
Proof.
  intros H. rewrite append_cons, append_empty. cbn [parse_regex].
  change (Ascii.eqb "^" "^") with true. cbv iota.
  now apply parse_body_ordinary.
Qed.

(** [.*] takes a prefix without newline and leaves the rest to the items
    that follow. *)
Lemma match_star_step items s :
  match_items (AnyStar :: items) s
  = match_items items s
    || match s with
       | String d s' =>
           negb (Ascii.eqb d newline) && match_items (AnyStar :: items) s'
       | EmptyString => false
       end.
Proof. destruct s; reflexivity. Qed.

Lemma match_star items s :
  match_items (AnyStar :: items) s = true
  <-> exists fill rest,
        s = fill ++ rest
        /\ contains_char newline fill = false
        /\ match_items items rest = true.
Proof.
  induction s as [|d s IH]; rewrite match_star_step.
  - rewrite orb_false_r. split.
    + intros H. now exists "", "".
    + intros (fill & rest & E & _ & H).
      destruct fill; [| discriminate]. rewrite append_empty in E.
      now subst rest.
  - split.
    + intros H. apply orb_true_iff in H as [H|H].
      * now exists "", (String d s).
      * apply andb_true_iff in H as [Hd H].
        apply IH in H as (fill & rest & E & Hf & H).
        exists (String d fill), rest. subst s. repeat split; [| exact H].
        cbn [contains_char]. rewrite Ascii.eqb_sym.
        apply negb_true_iff in Hd. now rewrite Hd.
    + intros (fill & rest & E & Hf & H). destruct fill as [|d' fill].
      * rewrite append_empty in E. subst rest. now rewrite H.
      * rewrite append_cons in E. injection E as -> ->.
        cbn [contains_char] in Hf. apply orb_false_iff in Hf as [Hd Hf].
        rewrite Ascii.eqb_sym, Hd.
        replace (match_items (AnyStar :: items) (fill ++ rest)) with true.
        -- apply orb_true_r.
        -- symmetry. apply IH. now exists fill, rest.
Qed.

(** The items of a pattern match the paths that instantiate it line-wise,
    a final newline being tolerated by [$]. *)
Lemma match_items_of pattern path :
  match_items (items_of pattern) path = true
  <-> line_instance pattern path
      \/ exists path',
           path = path' ++ String newline "" /\ line_instance pattern path'.
Proof.
  revert path. induction pattern as [|c pattern IH]; intros path.
  - cbn [items_of match_items]. split.
    + destruct path as [|d [|? ?]]; cbn; intros H; try discriminate.
      * left. constructor.
      * right. exists "". apply Ascii.eqb_eq in H. subst d.
        split; [reflexivity | constructor].
    + intros [H | (path' & -> & H)]; inversion H; reflexivity.
  - cbn [items_of]. destruct (Ascii.eqb c "*") eqn:E.
    + apply Ascii.eqb_eq in E. subst c. rewrite match_star. split.
      * intros (fill & rest & -> & Hf & H).
        apply IH in H as [H | (rest' & -> & H)].
        -- left. now constructor.
        -- right. exists (fill ++ rest'). rewrite append_assoc.
           split; [reflexivity | now constructor].
      * intros [H | (path' & -> & H)]; inversion H; subst;
          try congruence.
        -- eexists _, _. repeat split; [eassumption |]. apply IH. now left.
        -- eexists _, _. rewrite append_assoc.
           repeat split; [eassumption |]. apply IH. right. eauto.
    + apply Ascii.eqb_neq in E. cbn [match_items]. split.
      * destruct path as [|d path]; [discriminate |]. intros H.
        apply andb_true_iff in H as [Hd H]. apply Ascii.eqb_eq in Hd.
        subst d. apply IH in H as [H | (rest' & -> & H)].
        -- left. now constructor.
        -- right. exists (String c rest'). split; [reflexivity |].
           now constructor.
      * intros [H | (path' & -> & H)]; inversion H; subst;
          try congruence; rewrite ?append_cons, Ascii.eqb_refl; apply IH.
        -- now left.
        -- right. eauto.
Qed.

(** Every character of a pattern, the ["*"] apart, occurs in each of its
    instances. *)
Lemma instance_keeps_chars pattern path c :
  star_instance pattern path ->
  c <> "*"%char ->
  contains_char c pattern = true ->
  contains_char c path = true.
Proof.
  intros H Hc. induction H as [|d pattern path Hd H IH|fill pattern path H IH];
    cbn [contains_char]; intros Hp.
  - discriminate.
  - apply orb_true_iff in Hp as [Hp|Hp].
    + now rewrite Hp.
    + rewrite (IH Hp). apply orb_true_r.
  - apply orb_true_iff in Hp as [Hp|Hp].
    + apply Ascii.eqb_eq in Hp. contradiction.
    + rewrite contains_char_app, (IH Hp). apply orb_true_r.
Qed.




(** The examples of the spec. *)
Lemma path_matches_examples re_match_other path :
  _path_matches re_match_other "/*" path = Return true
  /\ _path_matches re_match_other "/api/*" "/api/x" = Return true
  /\ _path_matches re_match_other "/api/*" "/api/x/y" = Return true
  /\ _path_matches re_match_other "/api/*" "/apiz" = Return false.
Proof. repeat split; reflexivity. Qed.

(** ** Endpoint matching *)

Lemma in_list_In x l : in_list x l = true <-> In x l.
Proof.
  unfold in_list. rewrite existsb_exists. split.
  - intros (y & Hy & E). apply String.eqb_eq in E. now subst y.
  - intros H. exists x. split; [exact H | apply String.eqb_refl].
Qed.

(** The methods allow the request's method: they hold the wildcard, or
    the method up to case. *)
Lemma method_matches_spec allowed_methods method :
  _method_matches allowed_methods method = true
  <-> In "*" allowed_methods
      \/ exists m, In m allowed_methods /\ upper m = upper method.
Proof.
  unfold _method_matches. rewrite orb_true_iff, !in_list_In, in_map_iff.
  split; intros [H|H]; auto; right.
  - destruct H as (m & E & H). eauto.
  - destruct H as (m & H & E). eauto.
Qed.

Section FirstMatching.

Variable re_match_other : string -> string -> Outcome bool.

(** The loop returns an endpoint exactly when that endpoint qualifies and
    every endpoint declared before it was examined and passed over. *)
Lemma first_matching_some endpoints path method e :
  first_matching re_match_other endpoints path method = Return (Some e)
  <-> exists before after,
        endpoints = (before ++ e :: after)%list
        /\ Forall (passed_over re_match_other path method) before
        /\ qualifies re_match_other path method e.
Proof.
  induction endpoints as [|e0 endpoints IH]; cbn [first_matching].
  - split; [discriminate |].
    intros (before & after & E & _). now destruct before.
  - split.
    + destruct (_path_matches _ (Endpoint.path e0) path) as [[|]|x] eqn:Hp;
        [destruct (_method_matches (Endpoint.methods e0) method) eqn:Hm | |].
      * intros [= <-]. exists [], endpoints.
        split; [reflexivity | split; [constructor | now split]].
      * intros H. apply IH in H as (before & after & -> & Hb & Hq).
        exists (e0 :: before), after.
        split; [reflexivity | split; [| exact Hq]].
        constructor; [| exact Hb]. right. auto.
      * intros H. apply IH in H as (before & after & -> & Hb & Hq).
        exists (e0 :: before), after.
        split; [reflexivity | split; [| exact Hq]].
        constructor; [| exact Hb]. left. auto.
      * discriminate.
    + intros (before & after & E & Hb & Hp & Hm).
      destruct before as [|e1 before]; injection E as <- ->.
      * now rewrite Hp, Hm.
      * inversion Hb as [|? ? H1 Hb']; subst.
        assert (IH' : first_matching re_match_other (before ++ e :: after)%list
                        path method = Return (Some e)).
        { apply IH. exists before, after.
          split; [reflexivity | split; [exact Hb' | now split]]. }
        destruct H1 as [H1 | [H1 H2]]; rewrite H1; [| rewrite H2]; exact IH'.
Qed.

(** It returns none exactly when every endpoint was examined and passed
    over. *)
Lemma first_matching_none endpoints path method :
  first_matching re_match_other endpoints path method = Return None
  <-> Forall (passed_over re_match_other path method) endpoints.
Proof.
  induction endpoints as [|e0 endpoints IH]; cbn [first_matching].
  - split; auto.
  - split.
    + destruct (_path_matches _ (Endpoint.path e0) path) as [[|]|x] eqn:Hp;
        [destruct (_method_matches (Endpoint.methods e0) method) eqn:Hm | |];
        try discriminate; intros H; apply IH in H; constructor; auto.
      * right. auto.
      * left. auto.
    + intros H. inversion H as [|? ? H1 H']; subst.
      apply IH in H'.
      destruct H1 as [H1 | [H1 H2]]; rewrite H1; [| rewrite H2]; exact H'.
Qed.

End FirstMatching.

(** ** The undeclared target *)

(** C9: request handling reads [self.config.target], and [ProxyConfig]
    declares [server], [logging] and [targets] only: endpoint resolution
    raises [AttributeError] for every path and method, and so does the
    handling of every request, leaving the server as it was: over any
    sequence of requests no endpoint is matched, no counter is
    incremented, and nothing is logged, slept or sent to the backend. *)
Theorem handle_request_raises
  (re_match_other : string -> string -> Outcome bool)
  (random_random : nat -> Q)
  (client_request : list event -> ClientRequest.t -> Outcome ClientResponse.t)
  (utf8_decode : list Byte.byte -> option string) :
  (forall path method s,
      _find_matching_endpoint re_match_other path method s
      = (Raise (AttributeError "ProxyConfig" "target"), s))
  /\ (forall request full_path s,
         _handle_request re_match_other random_random client_request
           utf8_decode request full_path s
         = (Raise (AttributeError "ProxyConfig" "target"), s))
  /\ (forall requests s,
         handle_all re_match_other random_random client_request utf8_decode
           requests s = s).
Proof.
  assert (E : forall request full_path s,
             _handle_request re_match_other random_random client_request
               utf8_decode request full_path s
             = (Raise (AttributeError "ProxyConfig" "target"), s)).
  { intros request full_path s. unfold _handle_request, _find_matching_endpoint.
    unfold bind at 1 2. unfold get at 1. cbn [ProxyServer.config].
    unfold bind at 1. unfold lift at 1. now rewrite getattr_target. }
  split; [| split; [exact E |]].
  - intros path method s. unfold _find_matching_endpoint, bind, get, lift.
    now rewrite getattr_target.
  - induction requests as [|[request full_path] requests IH]; intros s.
    + reflexivity.
    + cbn [handle_all]. rewrite E. apply IH.
Qed.

(** C4, at a configuration whose target declares the endpoint [/echo]
    for [GET], and the request [get /echo]: endpoint matching should
    return that endpoint.  It raises [AttributeError] on
    [self.config.target]; the loop over the same endpoint list returns
    the endpoint. *)
Theorem find_matching_endpoint_echo
  (re_match_other : string -> string -> Outcome bool) :
  let s := started (config_of [echo]) in
  _find_matching_endpoint re_match_other "/echo" "get" s
  = (Raise (AttributeError "ProxyConfig" "target"), s)
  /\ first_matching re_match_other [echo] "/echo" "get" = Return (Some echo).
Proof. split; reflexivity. Qed.

(** ** The handler once endpoint and target are bound *)

Section Serving.

Variable random_random : nat -> Q.
Variable client_request :
  list event -> ClientRequest.t -> Outcome ClientResponse.t.
Variable utf8_decode : list Byte.byte -> option string.

(** The rule loop returns the response of the first rule its injector
    fires on: the rules before it were evaluated and did not fire, and
    the rules after it play no part. *)
Lemma inject_first_fires injector rules method path s failure s' :
  inject_first injector rules method path s = (Return (Some failure), s')
  <-> exists before rule after s1 s2,
        rules = (before ++ rule :: after)%list
        /\ inject_first injector before method path s = (Return None, s1)
        /\ injector rule method path s1 = (Return true, s2)
        /\ failure = response_of rule
        /\ s' = ProxyServer.add_event (injection_logged rule method path) s2.
Proof.
  revert s. induction rules as [|rule0 rules IH]; intros s.
  - split; [discriminate |].
    intros (before & rule & after & s1 & s2 & E & _). now destruct before.
  - rewrite inject_first_cons. split.
    + destruct (injector rule0 method path s) as [[[|]|e] s0] eqn:E0.
      * intros [= <- <-]. exists [], rule0, rules, s, s0.
        repeat split; assumption.
      * intros H. apply IH in H
          as (before & rule & after & s1 & s2 & -> & Hb & Hr & Hf & Hs).
        exists (rule0 :: before), rule, after, s1, s2.
        repeat split; try assumption.
        now rewrite inject_first_cons, E0.
      * discriminate.
    + intros (before & rule & after & s1 & s2 & E & Hb & Hr & -> & ->).
      destruct before as [|rule1 before]; injection E as <- ->.
      * injection Hb as <-. now rewrite Hr.
      * rewrite inject_first_cons in Hb.
        destruct (injector rule0 method path s) as [[[|]|e] s0];
          try discriminate.
        apply IH. exists before, rule, after, s1, s2. repeat split; assumption.
Qed.

(** Without debug logging, the handler returns the failure the rule loop
    injects, in the state the loop leaves, and forwards the request only
    when the loop injects none. *)
Lemma serve_after_rules injector endpoint target request path method s :
  Endpoint.debug endpoint = false ->
  serve client_request utf8_decode injector (Some endpoint) target request
    path method s
  = match inject_first injector (Endpoint.failure_rules endpoint)
            method path s with
    | (Return (Some failure), s') => (Return failure, s')
    | (Return None, s') =>
        forward client_request utf8_decode endpoint target request path
          method (Request.body request) s'
    | (Raise e, s') => (Raise e, s')
    end.
Proof.
  intros Hd. unfold serve. rewrite Hd. unfold bind at 1. unfold ret at 1.
  unfold bind.
  destruct (inject_first _ _ _ _ s) as [[[failure|]|e] s']; reflexivity.
Qed.

Lemma backend_calls_app evs1 evs2 :
  backend_calls (evs1 ++ evs2)%list
  = (backend_calls evs1 ++ backend_calls evs2)%list.
Proof.
  induction evs1 as [|[m msg|q|r] evs1 IH]; cbn [backend_calls app];
    [reflexivity | exact IH | exact IH | now rewrite IH].
Qed.

(** The constraint checks make no call to the backend. *)
Lemma checks_call_no_backend c method path s :
  backend_calls
    (ProxyServer.events (snd (constraint_checks random_random c method path s)))
  = backend_calls (ProxyServer.events s).
Proof.
  destruct (method_differs c method) eqn:H.
  - now rewrite checks_skip.
  - unfold constraint_checks. rewrite H, increment_runs.
    unfold bind, ret, draw_random, sleep, emit, modify, raise, truthy.
    repeat (case_step; simpl); try reflexivity;
      rewrite backend_calls_app; apply app_nil_r.
Qed.

(** Nor does the rule loop that runs them. *)
Lemma loop_calls_no_backend rules method path s :
  backend_calls
    (ProxyServer.events
       (snd (inject_first (checks_of_rule random_random) rules method path s)))
  = backend_calls (ProxyServer.events s).
Proof.
  revert s. induction rules as [|rule rules IH]; intros s.
  - reflexivity.
  - rewrite inject_first_cons.
    pose proof (checks_call_no_backend (FailureRule.condition rule)
                  method path s) as Hc.
    change (checks_of_rule random_random rule method path s)
      with (constraint_checks random_random (FailureRule.condition rule)
              method path s).
    destruct (constraint_checks _ _ _ _ s) as [[[|]|e] s1];
      cbn [fst snd] in *.
    + cbn [ProxyServer.add_event ProxyServer.events].
      rewrite backend_calls_app, Hc. apply app_nil_r.
    + now rewrite IH.
    + exact Hc.
Qed.

End Serving.

(** Once its endpoint and target are bound, the handler answers a request
    that no rule fires on with the backend's response, the framing headers
    removed. *)
Example serve_forwards (random_random : nat -> Q) :
  let s := started (config_of [echo]) in
  fst (serve answering decode_ascii (checks_of_rule random_random)
         (Some echo) (ATarget (backend_target [echo])) (GET []) "/echo" "GET" s)
  = Return
      (Response [Byte.x7b; Byte.x7d] 200
         [("content-type", "application/json"); ("x-served-by", "backend")]
         (Some "application/json"))
  /\ backend_calls
       (ProxyServer.events
          (snd (serve answering decode_ascii (checks_of_rule random_random)
                  (Some echo) (ATarget (backend_target [echo])) (GET [])
                  "/echo" "GET" s)))
     = [ClientRequest.mk "GET" "http://localhost:9000/echo"
          [("x-api-key", "secret")] [] []].
Proof. split; reflexivity. Qed.

(** An unreachable backend is answered with a 502. *)
Example serve_bad_gateway (random_random : nat -> Q) :
  fst (serve unreachable decode_ascii (checks_of_rule random_random)
         (Some echo) (ATarget (backend_target [echo])) (GET []) "/echo" "GET"
         (started (config_of [echo])))
  = Raise (HTTPException 502 "Bad Gateway: All connection attempts failed").
Proof. reflexivity. Qed.

(** C6, at a configuration whose target declares [/fail] with a rule
    without constraints, and the request [GET /fail]: the pipeline should
    return the rule's response.  It raises [AttributeError] on
    [self.config.target] and returns no response.  The handler's code
    from the endpoint test on, given that endpoint, the target and the
    constraint checks for an injector, returns the rule's status and body
    with empty headers and calls no backend. *)
Theorem handle_request_fail
  (re_match_other : string -> string -> Outcome bool)
  (random_random : nat -> Q)
  (client_request : list event -> ClientRequest.t -> Outcome ClientResponse.t)
  (utf8_decode : list Byte.byte -> option string) :
  let s := started (config_of [fail]) in
  let served :=
    serve client_request utf8_decode (checks_of_rule random_random)
      (Some fail) (ATarget (backend_target [fail])) (GET []) "/fail" "GET" s in
  _handle_request re_match_other random_random client_request utf8_decode
    (GET []) "fail" s
  = (Raise (AttributeError "ProxyConfig" "target"), s)
  /\ fst served = Return (JSONResponse 500 [("error", JStr "boom")] [])
  /\ backend_calls (ProxyServer.events (snd served)) = [].
Proof. repeat split; reflexivity. Qed.

(** C7, at a configuration whose target declares [/echo] alone, and the
    request [GET /nothing]: the pipeline should answer 404.  It raises
    [AttributeError] on [self.config.target], which is no client error;
    no backend is called and no counter changes.  The loop over the
    endpoint list finds no endpoint, and the handler's code from the
    endpoint test on raises the 404 without touching the server. *)
Theorem handle_request_nothing
  (re_match_other : string -> string -> Outcome bool)
  (random_random : nat -> Q)
  (client_request : list event -> ClientRequest.t -> Outcome ClientResponse.t)
  (utf8_decode : list Byte.byte -> option string) :
  let s := started (config_of [echo]) in
  _handle_request re_match_other random_random client_request utf8_decode
    (GET []) "nothing" s
  = (Raise (AttributeError "ProxyConfig" "target"), s)
  /\ first_matching re_match_other [echo] "/nothing" "GET" = Return None
  /\ (forall injector target,
         serve client_request utf8_decode injector None target (GET [])
           "/nothing" "GET" s
         = (Raise (HTTPException 404 "No matching endpoint found"), s)).
Proof. repeat split; reflexivity. Qed.

(** ** Configuration reload *)

(** C8: [reload_config] never lets an exception escape.  When
    [load_config] raises, the configuration, the logger's level and the
    counters stay as they were and the failure is logged as an error.
    When it returns, the new configuration is the server's configuration
    from then on, whatever becomes of the logger's level, and the next
    read of [self.config] yields it. *)
Theorem reload_config_outcome
  (load_config : list event -> string -> Outcome ProxyConfig.t)
  (logging_getattr : string -> Outcome logging_attr) (s : ProxyServer.t) :
  let after := reload_config load_config logging_getattr s in
  fst after = Return tt
  /\ ProxyServer.request_counts (snd after) = ProxyServer.request_counts s
  /\ match load_config (ProxyServer.events s) (ProxyServer.config_path s) with
     | Raise e =>
         ProxyServer.config (snd after) = ProxyServer.config s
         /\ ProxyServer.logger_level (snd after) = ProxyServer.logger_level s
         /\ ProxyServer.events (snd after)
            = (ProxyServer.events s ++ [Log error (ReloadFailed e)])%list
     | Return new_config =>
         ProxyServer.config (snd after) = new_config
         /\ get ProxyServer.config (snd after) = (Return new_config, snd after)
     end.
Proof.
  unfold reload_config, try_except, bind, get, lift, logger, emit, modify.
  cbn [fst snd].
  destruct (load_config _ _) as [new_config|e]; cbn.
  - destruct (logging_getattr _) as [[z|name|]|e]; cbn;
      [| destruct (_nameToLevel name); cbn | |]; auto.
  - auto.
Qed.

(** A level name that [logging] does not know: the new configuration is
    in place all the same, the level is the old one, and the failure of
    [getattr] is what the error log reports. *)
Example reload_unknown_level :
  let new_config :=
    ProxyConfig.mk (ServerConfig.mk "0.0.0.0" 8000 false)
      (LoggingConfig.mk "VERBOSE" "%(message)s") [] in
  let after :=
    reload_config (fun _ _ => Return new_config)
      (fun name => Raise (AttributeError "module" name))
      (started (config_of [echo])) in
  fst after = Return tt
  /\ ProxyServer.config (snd after) = new_config
  /\ ProxyServer.logger_level (snd after) = 0
  /\ ProxyServer.events (snd after)
     = [Log info ConfigReloaded;
        Log error (ReloadFailed (AttributeError "module" "VERBOSE"))].
Proof. repeat split; reflexivity. Qed.

(** * Further properties of the pipeline *)

(** ** Dictionaries *)

Lemma dict_get_set k k' v d :
  dict_get k' (dict_set k v d)
  = if String.eqb k' k then Some v else dict_get k' d.
Proof.
  induction d as [|[k0 v0] d IH]; cbn [dict_set dict_get].
  - destruct (String.eqb k' k); reflexivity.
  - destruct (String.eqb_spec k k0) as [->|Hk]; cbn [dict_get].
    + destruct (String.eqb k' k0); reflexivity.
    + destruct (String.eqb_spec k' k0) as [->|Hk'].
      * destruct (String.eqb_spec k0 k); [congruence | reflexivity].
      * exact IH.
Qed.

(** In [d.update(other)] the last value [other] gives a key wins, and a
    key [other] does not give keeps its value in [d]. *)
Lemma dict_get_update k d other :
  dict_get k (dict_update d other)
  = match dict_get k (rev other) with
    | Some v => Some v
    | None => dict_get k d
    end.
Proof.
  unfold dict_update. revert d.
  induction other as [|[k0 v0] other IH]; intros d; cbn [fold_left rev].
  - reflexivity.
  - rewrite IH. cbn [fst snd].
    assert (E : forall l, dict_get k (l ++ [(k0, v0)])%list
                = match dict_get k l with
                  | Some v => Some v
                  | None => if String.eqb k k0 then Some v0 else None
                  end).
    { induction l as [|[k1 v1] l IHl]; cbn [app dict_get].
      - reflexivity.
      - destruct (String.eqb k k1); [reflexivity | exact IHl]. }
    rewrite E, dict_get_set.
    destruct (dict_get k (rev other)); [reflexivity |].
    destruct (String.eqb k k0); reflexivity.
Qed.

Lemma dict_get_pop k k' d :
  dict_get k (dict_pop k' d)
  = if String.eqb k k' then None else dict_get k d.
Proof.
  unfold dict_pop.
  induction d as [|[k0 v0] d IH]; cbn [List.filter dict_get fst].
  - destruct (String.eqb k k'); reflexivity.
  - destruct (String.eqb_spec k' k0) as [->|Hk]; cbn [negb dict_get].
    + rewrite IH. destruct (String.eqb k k0); reflexivity.
    + rewrite IH. destruct (String.eqb_spec k k0) as [->|Hk0].
      * destruct (String.eqb_spec k0 k'); [congruence | reflexivity].
      * reflexivity.
Qed.

(** [dict(headers)] holds for each name the value of the first header
    line of that name. *)
Lemma dict_get_of_headers k headers :
  dict_get k (dict_of_headers headers) = dict_get k headers.
Proof.
  unfold dict_of_headers.
  set (g := fun name => dict_get name headers).
  assert (E : forall (l d : list (string * string)),
             dict_get k
               (fold_left
                  (fun acc kv =>
                     match g (fst kv) with
                     | Some v => dict_set (fst kv) v acc
                     | None => acc
                     end) l d)
             = if existsb (fun kv => String.eqb k (fst kv)) l
               then match g k with
                    | Some v => Some v
                    | None => dict_get k d
                    end
               else dict_get k d).
  { induction l as [|[k0 v0] l IH]; intros d; cbn [fold_left existsb fst].
    - reflexivity.
    - rewrite IH. destruct (String.eqb_spec k k0) as [->|Hk]; cbn [orb].
      + destruct (g k0) as [v|] eqn:Hg.
        * rewrite dict_get_set, String.eqb_refl.
          destruct (existsb _ l); reflexivity.
        * destruct (existsb _ l); reflexivity.
      + destruct (g k0) as [v|] eqn:Hg; [| reflexivity].
        rewrite dict_get_set.
        destruct (String.eqb_spec k k0); [contradiction | reflexivity]. }
  rewrite E. cbn [dict_get]. subst g. cbv beta.
  assert (N : forall l : list (string * string),
             existsb (fun kv => String.eqb k (fst kv)) l = false ->
             dict_get k l = None).
  { induction l as [|[k0 v0] l IH]; cbn [existsb dict_get fst].
    - reflexivity.
    - destruct (String.eqb k k0); [discriminate | exact IH]. }
  destruct (existsb _ headers) eqn:Hx.
  - now destruct (dict_get k headers).
  - now rewrite N.
Qed.

(** ** Forwarding *)

(** [rstrip] removes the trailing occurrences of the character, all of
    them and nothing else. *)
Lemma rstrip_spec c s :
  exists n,
    s = rstrip_char c s ++ repeat_char c n
    /\ ends_with_char c (rstrip_char c s) = false.
Proof.
  induction s as [|d s (n & Hs & He)].
  - exists 0%nat. split; reflexivity.
  - cbn [rstrip_char]. destruct (rstrip_char c s) as [|e r] eqn:Hr.
    + rewrite append_empty in Hs. destruct (Ascii.eqb_spec c d) as [->|Hc].
      * exists (S n). split; [| reflexivity].
        rewrite append_empty. cbn [repeat_char]. now rewrite <- Hs.
      * exists n. split.
        -- now rewrite append_cons, append_empty, <- Hs.
        -- cbn [ends_with_char]. now apply Ascii.eqb_neq.
    + exists n. split.
      * now rewrite append_cons, <- Hs.
      * exact He.
Qed.

Lemma events_add_events evs s :
  ProxyServer.events (add_events evs s) = (ProxyServer.events s ++ evs)%list.
Proof.
  unfold add_events. revert s.
  induction evs as [|e evs IH]; intros s; cbn [fold_left].
  - now rewrite app_nil_r.
  - rewrite IH. cbn [ProxyServer.add_event ProxyServer.events].
    now rewrite <- app_assoc.
Qed.

Lemma core_add_event e s : core (ProxyServer.add_event e s) = core s.
Proof. reflexivity. Qed.

Lemma core_add_events evs s : core (add_events evs s) = core s.
Proof.
  unfold add_events. revert s.
  induction evs as [|e evs IH]; intros s; [reflexivity |].
  cbn [fold_left]. now rewrite IH.
Qed.

Section Forwarding.

Variable client_request :
  list event -> ClientRequest.t -> Outcome ClientResponse.t.
Variable utf8_decode : list Byte.byte -> option string.

(** With a target bound, forwarding is one call to the backend, and its
    outcome follows the backend's. *)
Lemma forward_runs endpoint t request path method body s :
  let call := outbound_call t request path method body in
  let s1 := add_events (sending_logged endpoint request call) s in
  let s2 := ProxyServer.add_event (BackendCall call) s1 in
  forward client_request utf8_decode endpoint (ATarget t) request path method
    body s
  = match client_request (ProxyServer.events s1) call with
    | Return r =>
        (Return (relayed r),
         add_events (response_logged utf8_decode endpoint r) s2)
    | Raise (RequestError msg) =>
        (Raise (HTTPException 502 ("Bad Gateway: " ++ msg)),
         ProxyServer.add_event (Log error (RequestFailed msg)) s2)
    | Raise e => (Raise e, s2)
    end.
Proof.
  cbv zeta. unfold forward, sending_logged, response_logged, relayed,
    relayed_headers.
  unfold bind at 1. cbn [lift target_field].
  unfold bind at 1. cbn [lift target_field].
  fold (outbound_headers t request).
  fold (outbound_call t request path method body).
  destruct (Endpoint.debug endpoint).
  - destruct (Request.query_params request) as [|qp qps] eqn:Hq;
      unfold bind at 1; cbn;
      unfold try_except_RequestError, bind, client_call; cbn;
      (destruct (client_request _ _) as [r|[]]; cbn; try reflexivity;
       destruct (ClientResponse.content r); reflexivity).
  - unfold bind at 1. cbn.
    unfold try_except_RequestError, bind, client_call; cbn.
    destruct (client_request _ _) as [r|[]]; reflexivity.
Qed.

(** The one call forwarding makes. *)
Lemma forward_call_made endpoint t request path method body s :
  backend_calls
    (ProxyServer.events
       (snd (forward client_request utf8_decode endpoint (ATarget t)
               request path method body s)))
  = (backend_calls (ProxyServer.events s)
     ++ [outbound_call t request path method body])%list.
Proof.
  rewrite forward_runs. cbv zeta.
  set (call := outbound_call t request path method body).
  assert (Hs : backend_calls (sending_logged endpoint request call) = []).
  { unfold sending_logged. destruct (Endpoint.debug endpoint); [| reflexivity].
    destruct (Request.query_params request); reflexivity. }
  destruct (client_request _ call) as [r|e]; [| destruct e]; cbn [snd];
    rewrite ?events_add_events;
    cbn [ProxyServer.add_event ProxyServer.events];
    rewrite ?events_add_events, !backend_calls_app, ?Hs, ?app_nil_r;
    cbn [backend_calls]; rewrite ?app_nil_r; try reflexivity.
  unfold response_logged. destruct (Endpoint.debug endpoint);
    [destruct (ClientResponse.content r) |]; cbn [backend_calls app];
    now rewrite app_nil_r.
Qed.

(** X15: forwarding calls the backend exactly once, whatever the backend then
    does: with the request's method and body, its query parameters, and the
    target's URL, trailing slashes removed, followed by the path. *)
Theorem forward_calls_backend_once endpoint t request path method body s :
  exists base n,
    Target.url t = base ++ repeat_char "/" n
    /\ ends_with_char "/" base = false
    /\ backend_calls
         (ProxyServer.events
            (snd (forward client_request utf8_decode endpoint (ATarget t)
                    request path method body s)))
       = (backend_calls (ProxyServer.events s)
          ++ [ClientRequest.mk method (base ++ path)
                (outbound_headers t request) body
                (dict_update [] (Request.query_params request))])%list.
Proof.
  destruct (rstrip_spec "/" (Target.url t)) as (n & Hu & He).
  exists (rstrip_char "/" (Target.url t)), n.
  split; [exact Hu | split; [exact He |]].
  apply forward_call_made.
Qed.

(** X16: the headers of that call: never [host]; for any other name the
    target's value if the target sets it, else the value of the request's
    first header line of that name. *)
Theorem forward_headers endpoint t request path method body s :
  exists call,
    backend_calls
      (ProxyServer.events
         (snd (forward client_request utf8_decode endpoint (ATarget t)
                 request path method body s)))
    = (backend_calls (ProxyServer.events s) ++ [call])%list
    /\ forall k,
         dict_get k (ClientRequest.headers call)
         = if String.eqb k "host" then None
           else match dict_get k (rev (default [] (Target.headers t))) with
                | Some v => Some v
                | None => dict_get k (Request.headers request)
                end.
Proof.
  eexists. split; [apply forward_call_made |].
  intros k. cbn [outbound_call ClientRequest.headers].
  unfold outbound_headers. rewrite dict_get_pop.
  destruct (String.eqb k "host"); [reflexivity |].
  destruct (Target.headers t) as [[|h hs]|]; cbn [default from_option id];
    rewrite ?dict_get_update, dict_get_of_headers; reflexivity.
Qed.

(** X17: when the backend answers, its status and body are relayed as they
    are, with its content type; of its headers the three framing ones are
    dropped and every other one is kept. *)
Theorem forward_relays endpoint t request path method body s r :
  (forall evs,
      client_request evs (outbound_call t request path method body)
      = Return r) ->
  exists headers,
    fst (forward client_request utf8_decode endpoint (ATarget t) request path
           method body s)
    = Return (Response (ClientResponse.content r)
                (ClientResponse.status_code r) headers
                (dict_get "content-type" (ClientResponse.headers r)))
    /\ forall k,
         dict_get k headers
         = if framing k then None
           else dict_get k (rev (ClientResponse.headers r)).
Proof.
  intros H. rewrite forward_runs. cbv zeta. rewrite H. cbn [fst].
  exists (relayed_headers r). split; [reflexivity |].
  intros k. unfold relayed_headers, framing.
  rewrite !dict_get_pop, dict_get_update. cbn [dict_get].
  destruct (String.eqb k "content-length"),
    (String.eqb k "transfer-encoding"), (String.eqb k "content-encoding");
    cbn [orb]; try reflexivity.
  now destruct (dict_get k (rev (ClientResponse.headers r))).
Qed.

(** X18: when the call fails in transport, the failure is logged as an error
    and answered with a 502 that carries its message; the call is not
    made again. *)
Theorem forward_bad_gateway endpoint t request path method body s msg :
  (forall evs,
      client_request evs (outbound_call t request path method body)
      = Raise (RequestError msg)) ->
  let after :=
    forward client_request utf8_decode endpoint (ATarget t) request path
      method body s in
  fst after = Raise (HTTPException 502 ("Bad Gateway: " ++ msg))
  /\ ProxyServer.events (snd after)
     = (ProxyServer.events s
        ++ sending_logged endpoint request
             (outbound_call t request path method body)
        ++ [BackendCall (outbound_call t request path method body);
            Log error (RequestFailed msg)])%list.
Proof.
  intros H. cbv zeta. rewrite forward_runs. cbv zeta. rewrite H.
  split; [reflexivity |]. cbn [snd ProxyServer.add_event ProxyServer.events].
  rewrite events_add_events, <- !app_assoc. reflexivity.
Qed.

(** X19: any other exception of the call passes through as it is: it is
    neither logged nor turned into a 502. *)
Theorem forward_other_exception endpoint t request path method body s e :
  (forall evs,
      client_request evs (outbound_call t request path method body)
      = Raise e) ->
  (forall msg, e <> RequestError msg) ->
  let after :=
    forward client_request utf8_decode endpoint (ATarget t) request path
      method body s in
  fst after = Raise e
  /\ ProxyServer.events (snd after)
     = (ProxyServer.events s
        ++ sending_logged endpoint request
             (outbound_call t request path method body)
        ++ [BackendCall (outbound_call t request path method body)])%list.
Proof.
  intros H He. cbv zeta. rewrite forward_runs. cbv zeta. rewrite H.
  destruct e; try (now contradiction (He msg));
    (split; [reflexivity |]);
    cbn [snd ProxyServer.add_event ProxyServer.events];
    rewrite events_add_events, <- !app_assoc; reflexivity.
Qed.

(** X20: forwarding changes nothing of the server but the record of its
    effects: configuration, counters, logger level and random draws are
    as before. *)
Theorem forward_keeps_server endpoint target request path method body s :
  core (snd (forward client_request utf8_decode endpoint target request path
               method body s))
  = core s.
Proof.
  destruct target as [x|x|x|t]; try reflexivity.
  rewrite forward_runs. cbv zeta.
  destruct (client_request _ _) as [r|e]; [| destruct e]; cbn [snd];
    rewrite ?core_add_events, ?core_add_event, ?core_add_events; reflexivity.
Qed.

End Forwarding.

Lemma forward_relays_witness :
  exists headers,
    fst (forward answering decode_ascii echo (ATarget (backend_target [echo]))
           (GET []) "/echo" "GET" [] (started (config_of [echo])))
    = Return (Response (ClientResponse.content the_answer)
                (ClientResponse.status_code the_answer) headers
                (dict_get "content-type" (ClientResponse.headers the_answer)))
    /\ forall k,
         dict_get k headers
         = if framing k then None
           else dict_get k (rev (ClientResponse.headers the_answer)).
Proof.
  apply (forward_relays answering decode_ascii echo (backend_target [echo])
           (GET []) "/echo" "GET" [] (started (config_of [echo])) the_answer).
  intros evs. reflexivity.
Defined.

Lemma forward_bad_gateway_witness :
  let call := outbound_call (backend_target [echo]) (GET []) "/echo" "GET" [] in
  let after :=
    forward unreachable decode_ascii echo (ATarget (backend_target [echo]))
      (GET []) "/echo" "GET" [] (started (config_of [echo])) in
  fst after
  = Raise (HTTPException 502 "Bad Gateway: All connection attempts failed")
  /\ ProxyServer.events (snd after)
     = (ProxyServer.events (started (config_of [echo]))
        ++ sending_logged echo (GET []) call
        ++ [BackendCall call;
            Log error (RequestFailed "All connection attempts failed")])%list.
Proof.
  apply (forward_bad_gateway unreachable decode_ascii echo
           (backend_target [echo]) (GET []) "/echo" "GET" []
           (started (config_of [echo])) "All connection attempts failed").
  intros evs. reflexivity.
Defined.

Lemma forward_other_exception_witness :
  let call := outbound_call (backend_target [echo]) (GET []) "/echo" "GET" [] in
  let after :=
    forward misused decode_ascii echo (ATarget (backend_target [echo]))
      (GET []) "/echo" "GET" [] (started (config_of [echo])) in
  fst after = Raise (TypeError "Invalid type for url")
  /\ ProxyServer.events (snd after)
     = (ProxyServer.events (started (config_of [echo]))
        ++ sending_logged echo (GET []) call ++ [BackendCall call])%list.
Proof.
  apply (forward_other_exception misused decode_ascii echo
           (backend_target [echo]) (GET []) "/echo" "GET" []
           (started (config_of [echo])) (TypeError "Invalid type for url")).
  - intros evs. reflexivity.
  - intros msg. discriminate.
Defined.

(** ** Effects of the constraint checks *)

Ltac contradict_tests :=
  repeat match goal with
         | E : ?a = _, K : context [?a] |- _ => rewrite E in K
         end;
  cbn [negb orb andb] in *; rewrite ?orb_true_r in *;
  cbn [negb orb andb] in *; congruence.

Section CheckEffects.

Variable random_random : nat -> Q.

(** What the checks add to the record of effects. *)
Lemma checks_events_grow c method path s :
  ProxyServer.events (snd (constraint_checks random_random c method path s))
  = (ProxyServer.events s
     ++ match fst (constraint_checks random_random c method path s) with
        | Return true => slept c
        | _ => []
        end)%list.
Proof.
  destruct (method_differs c method) eqn:H.
  - rewrite checks_skip by assumption. cbn. now rewrite app_nil_r.
  - enter_checks H. unfold slept.
    repeat (case_step; simpl); settle; now rewrite ?app_nil_r.
Qed.

(** X7: the checks sleep only when the rule fires, and then once, for the
    rule's delay in milliseconds; otherwise they have no effect on the
    outside world. *)
Theorem checks_sleep_when_firing c method path s :
  let after := constraint_checks random_random c method path s in
  (fst after = Return true ->
   ProxyServer.events (snd after) = (ProxyServer.events s ++ slept c)%list)
  /\ (fst after <> Return true ->
      ProxyServer.events (snd after) = ProxyServer.events s).
Proof.
  cbv zeta. pose proof (checks_events_grow c method path s) as H.
  split; intros Hf.
  - now rewrite H, Hf.
  - rewrite H.
    destruct (fst (constraint_checks random_random c method path s))
      as [[|]|e]; [now contradiction Hf | |]; apply app_nil_r.
Qed.

(** X9: a value is drawn from the random generator exactly when the method,
    [count] and [every] constraints hold and a probability other than
    zero is set. *)
Theorem checks_draw c method path s :
  ProxyServer.draws (snd (constraint_checks random_random c method path s))
  = if negb (method_differs c method)
       && count_holds c (counter s (key_of method path) + 1)
       && every_holds c (counter s (key_of method path) + 1)
       && chance_tested c
    then S (ProxyServer.draws s)
    else ProxyServer.draws s.
Proof.
  destruct (method_differs c method) eqn:H.
  - now rewrite checks_skip by assumption.
  - enter_checks H. unfold count_holds, every_holds, chance_tested, key_of.
    repeat (case_step; simpl); settle; contradict_tests.
Qed.

(** X8: a delay that is negative or does not fit the limit of
    [time.sleep] is not slept: the rule that would have fired raises
    instead, its request having been counted.  The exception is
    [ValueError] for a negative delay down to [- widest_delay]
    milliseconds, and [OverflowError] beyond [widest_delay] in either
    direction. *)
Theorem checks_delay_not_slept c d method path s :
  FailureCondition.delay c = Some d ->
  d < 0 \/ widest_delay < d ->
  method_differs c method = false ->
  count_holds c (counter s (key_of method path) + 1) = true ->
  every_holds c (counter s (key_of method path) + 1) = true ->
  chance_passes random_random c s ->
  let after := constraint_checks random_random c method path s in
  fst after
  = Raise (if Z.abs d <=? widest_delay
           then ValueError "sleep length must be non-negative"
           else OverflowError)
  /\ counter (snd after) (key_of method path)
     = counter s (key_of method path) + 1
  /\ ProxyServer.events (snd after) = ProxyServer.events s.
Proof.
  intros Hd Hout H Hc He Hp. cbv zeta.
  assert (Hz : (d =? 0) = false)
    by (apply Z.eqb_neq; unfold widest_delay in *; lia).
  assert (Hf : fst (constraint_checks random_random c method path s)
               = Raise (if Z.abs d <=? widest_delay
                        then ValueError "sleep length must be non-negative"
                        else OverflowError)).
  { enter_checks H.
    unfold count_holds, every_holds, chance_passes, key_of in *.
    rewrite Hd in *. cbn [negb]. rewrite Hz. cbn [negb].
    destruct (Z.leb_spec (Z.abs d) widest_delay) as [Hr|Hr];
      unfold widest_delay in *;
      repeat (case_step; simpl); settle;
      try discriminate; try (destruct Hp; congruence);
      try (sleep_range; lia); try (sleep_sign; lia); contradict_tests. }
  split; [exact Hf | split].
  - rewrite checks_counter, H. reflexivity.
  - rewrite checks_events_grow, Hf. apply app_nil_r.
Qed.

(** X10: no counter ever decreases, and none grows by more than one in an
    invocation. *)
Theorem checks_counters_grow c method path s key :
  counter s key
  <= counter (snd (constraint_checks random_random c method path s)) key
  <= counter s key + 1.
Proof.
  destruct (String.eqb_spec key (key_of method path)) as [->|Hk].
  - rewrite checks_counter. destruct (method_differs c method); lia.
  - rewrite checks_counter_other by assumption. lia.
Qed.

(** X4: on a rule with no method, probability or delay, the invocations for
    one method and path decide in turn on the successive values of the
    counter. *)
Theorem nth_invocation cnt ev n method path s :
  let c := FailureCondition.mk None cnt ev None None in
  fst (constraint_checks random_random c method path
         (after_checks random_random n c method path s))
  = Return
      (count_holds c (counter s (key_of method path) + Z.of_nat (S n))
       && every_holds c (counter s (key_of method path) + Z.of_nat (S n))).
Proof.
  cbv zeta. rewrite checks_outcome by (reflexivity || exact I).
  rewrite counter_after_checks by reflexivity.
  replace (counter s (key_of method path) + Z.of_nat n + 1)
    with (counter s (key_of method path) + Z.of_nat (S n)) by lia.
  reflexivity.
Qed.

End CheckEffects.

Lemma checks_delay_not_slept_witness :
  let c := FailureCondition.mk None None None None (Some (-5)) in
  let huge :=
    FailureCondition.mk None None None None (Some 10000000000000000) in
  let s0 := started (config_of []) in
  (fst (constraint_checks one_half c "GET" "/x" s0)
   = Raise (ValueError "sleep length must be non-negative")
   /\ counter (snd (constraint_checks one_half c "GET" "/x" s0))
        (key_of "GET" "/x")
      = counter s0 (key_of "GET" "/x") + 1
   /\ ProxyServer.events (snd (constraint_checks one_half c "GET" "/x" s0))
      = ProxyServer.events s0)
  /\ (fst (constraint_checks one_half huge "GET" "/x" s0)
      = Raise OverflowError
      /\ counter (snd (constraint_checks one_half huge "GET" "/x" s0))
           (key_of "GET" "/x")
         = counter s0 (key_of "GET" "/x") + 1
      /\ ProxyServer.events
           (snd (constraint_checks one_half huge "GET" "/x" s0))
         = ProxyServer.events s0).
Proof.
  split.
  - apply (checks_delay_not_slept one_half
             (FailureCondition.mk None None None None (Some (-5))) (-5)
             "GET" "/x" (started (config_of []))).
    + reflexivity.
    + left. lia.
    + reflexivity.
    + reflexivity.
    + reflexivity.
    + exact I.
  - apply (checks_delay_not_slept one_half
             (FailureCondition.mk None None None None
                (Some 10000000000000000)) 10000000000000000
             "GET" "/x" (started (config_of []))).
    + reflexivity.
    + right. unfold widest_delay. lia.
    + reflexivity.
    + reflexivity.
    + reflexivity.
    + exact I.
Defined.

(** ** Keys of the counters *)

(** X11: two requests share a counter only if they have the same method, as
    written, and the same path -- as long as no method holds a colon. *)
Theorem key_of_injective method path method' path' :
  contains_char ":" method = false ->
  contains_char ":" method' = false ->
  key_of method path = key_of method' path' ->
  method = method' /\ path = path'.
Proof.
  unfold key_of. revert method'.
  induction method as [|c m IH]; intros [|c' m'] Hm Hm' E.
  - change (String ":" path = String ":" path') in E.
    injection E as ->. now split.
  - change (String ":" path = String c' (m' ++ ":" ++ path')) in E.
    injection E as <- _. discriminate.
  - change (String c (m ++ ":" ++ path) = String ":" path') in E.
    injection E as -> _. discriminate.
  - change (String c (m ++ ":" ++ path) = String c' (m' ++ ":" ++ path')) in E.
    injection E as <- E.
    cbn [contains_char] in Hm, Hm'.
    apply orb_false_iff in Hm as [_ Hm]. apply orb_false_iff in Hm' as [_ Hm'].
    destruct (IH m' Hm Hm' E) as [-> ->]. now split.
Qed.

Lemma key_of_injective_witness : "GET" = "GET" /\ "/x" = "/x".
Proof.
  apply (key_of_injective "GET" "/x" "GET" "/x"); reflexivity.
Defined.

(** ** Errors of endpoint matching *)

(** Matching raises exactly when the pattern of some endpoint cannot be
    matched and every endpoint declared before it was passed over: an
    endpoint that would qualify further down the list is not reached. *)
Lemma first_matching_raise_iff re_match_other endpoints path method x :
  first_matching re_match_other endpoints path method = Raise x
  <-> exists before e after,
        endpoints = (before ++ e :: after)%list
        /\ Forall (passed_over re_match_other path method) before
        /\ _path_matches re_match_other (Endpoint.path e) path = Raise x.
Proof.
  induction endpoints as [|e0 endpoints IH]; cbn [first_matching].
  - split; [discriminate |].
    intros (before & e & after & E & _). now destruct before.
  - split.
    + destruct (_path_matches _ (Endpoint.path e0) path) as [[|]|y] eqn:Hp;
        [destruct (_method_matches (Endpoint.methods e0) method) eqn:Hm | |].
      * discriminate.
      * intros H. apply IH in H as (before & e & after & -> & Hb & Hx).
        exists (e0 :: before), e, after.
        split; [reflexivity | split; [| exact Hx]].
        constructor; [| exact Hb]. right. auto.
      * intros H. apply IH in H as (before & e & after & -> & Hb & Hx).
        exists (e0 :: before), e, after.
        split; [reflexivity | split; [| exact Hx]].
        constructor; [| exact Hb]. left. auto.
      * intros [= ->]. exists [], e0, endpoints.
        split; [reflexivity | split; [constructor | exact Hp]].
    + intros (before & e & after & E & Hb & Hx).
      destruct before as [|e1 before]; injection E as <- ->.
      * now rewrite Hx.
      * inversion Hb as [|? ? H1 Hb']; subst.
        assert (IH' : first_matching re_match_other (before ++ e :: after)%list
                        path method = Raise x).
        { apply IH. exists before, e, after. auto. }
        destruct H1 as [H1 | [H1 H2]]; rewrite H1; [| rewrite H2]; exact IH'.
Qed.

(** ** Reload of the logger's level *)

(** X22: a reload whose configuration loads and whose level name [logging]
    resolves to a number puts both in place and logs its success; the
    counters are not reset. *)
Theorem reload_sets_level load_config logging_getattr s new_config z :
  load_config (ProxyServer.events s) (ProxyServer.config_path s)
  = Return new_config ->
  logging_getattr (LoggingConfig.level (ProxyConfig.logging new_config))
  = Return (LInt z) ->
  reload_config load_config logging_getattr s
  = (Return tt,
     ProxyServer.mk new_config (ProxyServer.config_path s)
       (ProxyServer.request_counts s) z (ProxyServer.draws s)
       (ProxyServer.events s ++ [Log info ConfigReloaded])).
Proof.
  intros Hl Hg.
  unfold reload_config, try_except, bind, get, lift, logger, emit, modify.
  rewrite Hl. cbn. rewrite Hg. reflexivity.
Qed.

Lemma reload_sets_level_witness :
  reload_config (loading debug_config) logging_levels (started (config_of []))
  = (Return tt,
     ProxyServer.mk debug_config "config.yaml" ∅ 10 0
       [Log info ConfigReloaded]).
Proof.
  apply (reload_sets_level (loading debug_config) logging_levels
           (started (config_of [])) debug_config 10); reflexivity.
Defined.

(** ** The handler, with a target bound *)

Section Handling.

Variable random_random : nat -> Q.
Variable client_request :
  list event -> ClientRequest.t -> Outcome ClientResponse.t.
Variable utf8_decode : list Byte.byte -> option string.

(** A matched request is logged if its endpoint asks for it, then tried
    against the failure rules, then forwarded if none fires. *)
Lemma serve_runs injector endpoint t request path method s :
  serve client_request utf8_decode injector (Some endpoint) (ATarget t)
    request path method s
  = match inject_first injector (Endpoint.failure_rules endpoint) method path
            (add_events
               (request_logged utf8_decode endpoint t request path method) s)
    with
    | (Return (Some failure), s') => (Return failure, s')
    | (Return None, s') =>
        forward client_request utf8_decode endpoint (ATarget t) request path
          method (Request.body request) s'
    | (Raise e, s') => (Raise e, s')
    end.
Proof.
  unfold serve, request_logged. destruct (Endpoint.debug endpoint).
  - unfold bind at 1. unfold bind at 1. cbn [lift target_field].
    unfold bind at 1. unfold bind at 1.
    destruct (Request.body request) as [|b body]; cbn;
      unfold bind;
      destruct (inject_first _ _ _ _ _) as [[[failure|]|e] s']; reflexivity.
  - unfold bind at 1. unfold ret at 1. unfold bind. cbn [add_events fold_left].
    destruct (inject_first _ _ _ _ s) as [[[failure|]|e] s']; reflexivity.
Qed.

Lemma request_logged_calls endpoint t request path method :
  backend_calls (request_logged utf8_decode endpoint t request path method)
  = [].
Proof. unfold request_logged. now destruct (Endpoint.debug endpoint). Qed.

(** The rule loop only adds to the record of effects. *)
Lemma loop_events rules method path s :
  exists rest,
    ProxyServer.events
      (snd (inject_first (checks_of_rule random_random) rules method path s))
    = (ProxyServer.events s ++ rest)%list.
Proof.
  revert s. induction rules as [|rule rules IH]; intros s.
  - exists []. cbn. now rewrite app_nil_r.
  - rewrite inject_first_cons.
    pose proof (checks_events_grow random_random
                  (FailureRule.condition rule) method path s) as Hc.
    change (checks_of_rule random_random rule method path s)
      with (constraint_checks random_random (FailureRule.condition rule)
              method path s).
    destruct (constraint_checks _ _ _ _ s) as [[[|]|e] s1];
      cbn [fst snd] in *.
    + eexists. cbn [ProxyServer.add_event ProxyServer.events].
      rewrite Hc, <- app_assoc. reflexivity.
    + destruct (IH s1) as (rest & Hr). exists rest.
      now rewrite Hr, Hc, app_nil_r.
    + exists []. exact Hc.
Qed.



End Handling.

(** ** Environment variables in headers *)

Lemma starts_with_app p s : starts_with p (p ++ s) = true.
Proof.
  induction p as [|c p IH]; [reflexivity |].
  rewrite append_cons. cbn [starts_with]. now rewrite Ascii.eqb_refl.
Qed.

Lemma ends_with_char_app c s : ends_with_char c (s ++ String c "") = true.
Proof.
  induction s as [|d s IH].
  - rewrite append_empty. cbn. apply Ascii.eqb_refl.
  - rewrite append_cons. cbn [ends_with_char].
    destruct (s ++ String c "") eqn:E; [| exact IH].
    destruct s; discriminate.
Qed.

Lemma length_app (s t : string) :
  String.length (s ++ t) = (String.length s + String.length t)%nat.
Proof.
  induction s as [|c s IH]; [reflexivity |].
  rewrite append_cons. cbn [String.length]. now rewrite IH.
Qed.

Lemma substring_prefix (s t : string) :
  substring 0 (String.length s) (s ++ t) = s.
Proof.
  induction s as [|c s IH].
  - rewrite append_empty. now destruct t.
  - rewrite append_cons. cbn [String.length substring]. now rewrite IH.
Qed.

(** A string that ends with a character is what precedes it, followed by
    it. *)
Lemma ends_with_char_split c s :
  ends_with_char c s = true ->
  s = substring 0 (String.length s - 1) s ++ String c "".
Proof.
  induction s as [|d s IH]; [discriminate |].
  cbn [ends_with_char String.length]. destruct s as [|e s].
  - intros H. apply Ascii.eqb_eq in H. now subst d.
  - intros H. specialize (IH H). cbn [String.length] in *.
    replace (S (S (String.length s)) - 1)%nat with (S (String.length s))
      by lia.
    replace (S (String.length s) - 1)%nat with (String.length s) in IH by lia.
    change (substring 0 (S (String.length s)) (String d (String e s)))
      with (String d (substring 0 (String.length s) (String e s))).
    rewrite append_cons. f_equal. exact IH.
Qed.

(** The strings [load_config] takes for placeholders are those of the
    form ["${" ++ name ++ "}"], [name] being what it looks up. *)
Lemma placeholder_shape v :
  starts_with "${" v && ends_with_char "}" v = true ->
  v = "${" ++ substring 2 (String.length v - 3) v ++ "}".
Proof.
  intros H. apply andb_true_iff in H as [Hs He].
  destruct v as [|c1 v]; [discriminate |].
  cbn [starts_with] in Hs. apply andb_true_iff in Hs as [H1 Hs].
  destruct v as [|c2 rest]; [discriminate |].
  apply andb_true_iff in Hs as [H2 _].
  apply Ascii.eqb_eq in H1, H2. subst c1 c2.
  cbn [ends_with_char] in He. destruct rest as [|c rest]; [discriminate |].
  apply ends_with_char_split in He.
  cbn [String.length]. cbn [String.length] in He.
  replace (S (S (S (String.length rest))) - 3)%nat with (String.length rest)
    by lia.
  replace (S (String.length rest) - 1)%nat with (String.length rest)
    in He by lia.
  change (substring 2 (String.length rest) (String "$" (String "{" (String c rest))))
    with (substring 0 (String.length rest) (String c rest)).
  change ("${" ++ ?x) with (String "$" (String "{" x)).
  now rewrite <- He.
Qed.

Section Expansion.

Variable getenv : string -> option string.

(** X24: a header value of the form [${NAME}] becomes the value of the
    environment variable [NAME], and stays as it is when the variable is
    not set. *)
Theorem expand_value_placeholder name :
  expand_value getenv (YStr ("${" ++ name ++ "}"))
  = YStr (default ("${" ++ name ++ "}") (getenv name)).
Proof.
  unfold expand_value.
  rewrite starts_with_app.
  change ("${" ++ name ++ "}") with (String "$" (String "{" (name ++ "}"))).
  assert (He : ends_with_char "}" (String "$" (String "{" (name ++ "}")))
               = true).
  { exact (ends_with_char_app "}" (String "$" (String "{" name))). }
  rewrite He. cbn [andb String.length].
  rewrite length_app. cbn [String.length].
  replace (S (S (String.length name + 1)) - 3)%nat with (String.length name)
    by lia.
  change (substring 2 (String.length name)
            (String "$" (String "{" (name ++ "}"))))
    with (substring 0 (String.length name) (name ++ "}")).
  now rewrite substring_prefix.
Qed.

(** X25: no other value is touched: a header changes only if it is such a
    placeholder and its variable is set. *)
Theorem expand_value_changes value :
  expand_value getenv value <> value ->
  exists name v,
    value = YStr ("${" ++ name ++ "}")
    /\ getenv name = Some v
    /\ expand_value getenv value = YStr v.
Proof.
  destruct value as [| | | |s| |]; try (intros H; now contradiction H).
  unfold expand_value.
  destruct (starts_with "${" s && ends_with_char "}" s) eqn:Hp;
    [| intros H; now contradiction H].
  destruct (getenv (substring 2 (String.length s - 3) s)) as [v|] eqn:Hg;
    [| intros H; now contradiction H].
  intros _. exists (substring 2 (String.length s - 3) s), v.
  split; [| split; [exact Hg | reflexivity]].
  f_equal. now apply placeholder_shape.
Qed.

End Expansion.

Lemma expand_value_changes_witness :
  exists name v,
    YStr "${API_TOKEN}" = YStr ("${" ++ name ++ "}")
    /\ env_token name = Some v
    /\ expand_value env_token (YStr "${API_TOKEN}") = YStr v.
Proof.
  apply (expand_value_changes env_token (YStr "${API_TOKEN}")).
  discriminate.
Defined.

(** ** Documents and their expansion *)

Lemma ymap_get_set key key' v m :
  ymap_get key' (ymap_set key v m)
  = if String.eqb key' key
    then match ymap_get key m with Some _ => Some v | None => None end
    else ymap_get key' m.
Proof.
  induction m as [|[k v0] m IH]; cbn [ymap_set ymap_get].
  - now destruct (String.eqb key' key).
  - destruct k as [| | | |k| |]; cbn [ymap_get]; try exact IH.
    destruct (String.eqb_spec key k) as [->|Hk]; cbn [ymap_get].
    + destruct (String.eqb key' k); reflexivity.
    + destruct (String.eqb_spec key' k) as [->|Hk'].
      * destruct (String.eqb_spec k key); [congruence | reflexivity].
      * exact IH.
Qed.

Lemma ymap_set_same key v m :
  ymap_get key m = Some v -> ymap_set key v m = m.
Proof.
  induction m as [|[k v0] m IH]; cbn [ymap_set ymap_get]; [reflexivity |].
  destruct k as [| | | |k| |]; try (intros H; now rewrite IH).
  destruct (String.eqb key k).
  - now intros [= ->].
  - intros H. now rewrite IH.
Qed.

Lemma ymap_get_map key f m :
  ymap_get key (map (fun kv => (fst kv, f (snd kv))) m)
  = option_map f (ymap_get key m).
Proof.
  induction m as [|[k v0] m IH]; cbn [map ymap_get fst snd]; [reflexivity |].
  destruct k as [| | | |k| |]; try exact IH.
  destruct (String.eqb key k); [reflexivity | exact IH].
Qed.

Section Documents.

Variable getenv : string -> option string.

(** X26: one pass of the loop body of [load_config] over a target, when
    it completes, leaves the target with the header mapping it had, if it
    had one: the keys are the same, in the same order, and each header
    holds the expansion of the value it held when the pass began. *)
Theorem expand_target_pass target_data target_data' headers :
  expand_target getenv target_data = Return target_data' ->
  headers_of target_data = Some headers ->
  exists headers',
    headers_of target_data' = Some headers'
    /\ map fst headers' = map fst headers
    /\ forall key,
         ymap_get key headers'
         = option_map (expand_value getenv) (ymap_get key headers).
Proof.
  unfold expand_target, headers_of.
  destruct target_data as [| | | | | |m]; try discriminate.
  cbn [has_headers get_headers].
  destruct (ymap_get "headers" m) as [h|] eqn:Hh; [| discriminate].
  destruct h as [| | | | | |hs]; try discriminate.
  cbn [items]. intros [= <-] [= <-].
  exists (map (fun kv => (fst kv, expand_value getenv (snd kv))) hs).
  split; [| split].
  - now rewrite ymap_get_set, String.eqb_refl, Hh.
  - rewrite map_map. reflexivity.
  - intros key. apply ymap_get_map.
Qed.

(** With no variable of the environment set, the expansion returns the
    document as it is. *)
Lemma expand_env_identity doc doc' :
  (forall name, getenv name = None) ->
  expand_env getenv doc = Return doc' ->
  doc' = doc.
Proof.
  intros Hn.
  assert (Hv : forall v, expand_value getenv v = v).
  { intros [| | | |s| |]; try reflexivity. unfold expand_value.
    rewrite Hn. now destruct (_ && _). }
  assert (Hm : forall l : list (yaml * yaml),
             map (fun kv => (fst kv, expand_value getenv (snd kv))) l = l).
  { induction l as [|[k v] l IH]; [reflexivity |].
    cbn [map fst snd]. now rewrite Hv, IH. }
  assert (Ht : forall d d', expand_target getenv d = Return d' -> d' = d).
  { intros d d'. unfold expand_target.
    destruct d as [| | | |s|l|m]; cbn [has_headers get_headers type_name];
      try discriminate.
    - destruct (is_substring "headers" s); [discriminate | now intros [= <-]].
    - destruct (existsb _ l); [discriminate | now intros [= <-]].
    - destruct (ymap_get "headers" m) as [h|] eqn:Hh; [| now intros [= <-]].
      destruct h as [| | | | | |headers]; cbn [items type_name];
        try discriminate.
      intros [= <-]. rewrite Hm. now rewrite ymap_set_same. }
  assert (Hts : forall ts ts', expand_targets getenv ts = Return ts' -> ts' = ts).
  { induction ts as [|[k d] ts IH]; intros ts'; cbn [expand_targets].
    - now intros [= <-].
    - destruct (expand_target getenv d) as [d'|] eqn:Hd; [| discriminate].
      destruct (expand_targets getenv ts) as [rest'|]; [| discriminate].
      intros [= <-]. now rewrite (Ht d d' Hd), (IH rest' eq_refl). }
  unfold expand_env.
  destruct doc as [| | | | | |m]; cbn [get_targets type_name];
    try discriminate.
  destruct (ymap_get "targets" m) as [targets|] eqn:Hg;
    cbn [from_option id].
  - destruct targets as [| | | | | |targets]; cbn [items type_name];
      try discriminate.
    destruct (expand_targets getenv targets) as [targets'|] eqn:He;
      [| discriminate].
    intros [= <-]. rewrite (Hts targets targets' He).
    now rewrite ymap_set_same.
  - cbn [items expand_targets]. intros [= <-]. f_equal.
    clear -Hg. induction m as [|[k v] m IH]; [reflexivity |].
    cbn [ymap_get ymap_set] in *.
    destruct k as [| | | |k| |]; try (now rewrite IH).
    destruct (String.eqb "targets" k); [discriminate | now rewrite IH].
Qed.

End Documents.

Lemma expand_target_pass_witness :
  exists headers',
    headers_of
      (YMap
         [(YStr "url", YStr "http://localhost:9000");
          (YStr "headers",
           YMap
             [(YStr "Authorization", YStr "s3cr3t");
              (YStr "X-Env", YStr "${STAGE}")])])
    = Some headers'
    /\ map fst headers' = [YStr "Authorization"; YStr "X-Env"]
    /\ forall key,
         ymap_get key headers'
         = option_map (expand_value env_token)
             (ymap_get key
                [(YStr "Authorization", YStr "${API_TOKEN}");
                 (YStr "X-Env", YStr "${STAGE}")]).
Proof.
  apply (expand_target_pass env_token token_target
           (YMap
              [(YStr "url", YStr "http://localhost:9000");
               (YStr "headers",
                YMap
                  [(YStr "Authorization", YStr "s3cr3t");
                   (YStr "X-Env", YStr "${STAGE}")])])
           [(YStr "Authorization", YStr "${API_TOKEN}");
            (YStr "X-Env", YStr "${STAGE}")]);
    reflexivity.
Defined.

(** ** Loading a configuration *)

Section Loader.

Variable getenv : string -> option string.
Variable path_exists : string -> bool.
Variable safe_load : string -> Outcome yaml.
Variable validate : yaml -> Outcome ProxyConfig.t.

Lemma is_FileNotFoundError_raised msg :
  is_FileNotFoundError (FileNotFoundError msg) = true.
Proof. apply starts_with_app. Qed.

(** The targets before a target whose [headers] is not a mapping are
    expanded, and the loop stops there. *)
Lemma expand_targets_stops before before' name target_data h after :
  expand_targets getenv before = Return before' ->
  ymap_get "headers" target_data = Some h ->
  (forall headers, h <> YMap headers) ->
  expand_targets getenv
    (before ++ (name, YMap target_data) :: after)%list
  = Raise (AttributeError (type_name h) "items").
Proof.
  intros Hb Hh Hn. revert before' Hb.
  induction before as [|[k d] before IH]; intros before'.
  - intros _. cbn [app expand_targets]. unfold expand_target.
    cbn [has_headers get_headers]. rewrite Hh. cbn.
    destruct h as [| | | | | |headers]; try reflexivity.
    now contradiction (Hn headers).
  - cbn [app expand_targets].
    destruct (expand_target getenv d) as [d'|]; [| discriminate].
    destruct (expand_targets getenv before) as [rest|]; [| discriminate].
    intros _. now rewrite (IH rest eq_refl).
Qed.

(** X27: a target whose [headers] key holds no mapping -- the key written
    without a value, for instance -- makes [load_config] raise
    [AttributeError] before the document is validated, provided the
    targets before it raise nothing. *)
Theorem load_config_headers_not_a_mapping config_path top before before' name
  target_data h after :
  path_exists config_path = true ->
  safe_load config_path = Return (YMap top) ->
  ymap_get "targets" top
  = Some (YMap (before ++ (name, YMap target_data) :: after)%list) ->
  expand_targets getenv before = Return before' ->
  ymap_get "headers" target_data = Some h ->
  (forall headers, h <> YMap headers) ->
  load_config getenv path_exists safe_load validate config_path
  = Raise (AttributeError (type_name h) "items").
Proof.
  intros He Hl Ht Hb Hh Hn. unfold load_config. rewrite He, Hl. cbn [negb].
  unfold expand_env. cbn [get_targets]. rewrite Ht. cbn [from_option id items].
  now rewrite (expand_targets_stops before before' name target_data h after).
Qed.

(** X28: with no variable of the environment set, a file that parses is
    validated as it was parsed. *)
Theorem load_config_without_environment config_path doc :
  (forall name, getenv name = None) ->
  path_exists config_path = true ->
  safe_load config_path = Return doc ->
  load_config getenv path_exists safe_load validate config_path
  = match expand_env getenv doc with
    | Return _ => validate doc
    | Raise e => Raise e
    end.
Proof.
  intros Hn He Hl. unfold load_config. rewrite He, Hl. cbn [negb].
  destruct (expand_env getenv doc) as [doc'|e] eqn:Hx; [| reflexivity].
  now rewrite (expand_env_identity getenv doc doc' Hn Hx).
Qed.

(** X29: when [config.yaml] does not exist, [main] starts from
    [config.example.yaml] and hands that path to the server, which is the
    file reloads will read. *)
Theorem main_falls_back :
  path_exists "config.yaml" = false ->
  main getenv path_exists safe_load validate
  = match load_config getenv path_exists safe_load validate
            "config.example.yaml" with
    | Return config => Return (config, "config.example.yaml")
    | Raise e => Raise e
    end.
Proof.
  intros H. unfold main. unfold load_config at 1. rewrite H. cbn [negb].
  now rewrite is_FileNotFoundError_raised.
Qed.

(** X30: a [config.yaml] that exists but is refused by the validation stops
    [main] with the validation's exception: the example is not tried. *)
Theorem main_keeps_invalid_config doc doc' e :
  path_exists "config.yaml" = true ->
  safe_load "config.yaml" = Return doc ->
  expand_env getenv doc = Return doc' ->
  validate doc' = Raise e ->
  is_FileNotFoundError e = false ->
  main getenv path_exists safe_load validate = Raise e.
Proof.
  intros He Hl Hx Hv Hf. unfold main, load_config.
  rewrite He. cbn [negb]. rewrite Hl, Hx, Hv. cbv beta iota zeta.
  now rewrite Hf.
Qed.

End Loader.

Lemma load_config_headers_not_a_mapping_witness :
  load_config no_env (only_file "config.yaml") (parsing blank_headers_document)
    accepting "config.yaml"
  = Raise (AttributeError (type_name YNull) "items").
Proof.
  apply (load_config_headers_not_a_mapping no_env (only_file "config.yaml")
           (parsing blank_headers_document) accepting "config.yaml"
           [(YStr "targets",
             YMap
               [(YStr "backend",
                 YMap
                   [(YStr "url", YStr "http://localhost:9000");
                    (YStr "headers", YNull)])])]
           [] [] (YStr "backend")
           [(YStr "url", YStr "http://localhost:9000");
            (YStr "headers", YNull)]
           YNull []).
  - reflexivity.
  - reflexivity.
  - reflexivity.
  - reflexivity.
  - reflexivity.
  - intros headers. discriminate.
Defined.

Lemma load_config_without_environment_witness :
  load_config no_env (only_file "config.yaml") (parsing token_document)
    rejecting "config.yaml"
  = match expand_env no_env token_document with
    | Return _ => rejecting token_document
    | Raise e => Raise e
    end.
Proof.
  apply (load_config_without_environment no_env (only_file "config.yaml")
           (parsing token_document) rejecting "config.yaml" token_document).
  - intros name. reflexivity.
  - reflexivity.
  - reflexivity.
Defined.

Lemma main_falls_back_witness :
  main no_env (only_file "config.example.yaml") (parsing token_document)
    accepting
  = match load_config no_env (only_file "config.example.yaml")
            (parsing token_document) accepting "config.example.yaml" with
    | Return config => Return (config, "config.example.yaml")
    | Raise e => Raise e
    end.
Proof.
  apply (main_falls_back no_env (only_file "config.example.yaml")
           (parsing token_document) accepting).
  reflexivity.
Defined.

Lemma main_keeps_invalid_config_witness :
  main no_env (only_file "config.yaml") (parsing token_document) rejecting
  = Raise (ValueError "validation error for ProxyConfig").
Proof.
  apply (main_keeps_invalid_config no_env (only_file "config.yaml")
           (parsing token_document) rejecting token_document token_document);
    reflexivity.
Defined.

(** ** Watching the configuration file *)

(** A reload returns normally and keeps the counters. *)
Lemma reload_config_returns load_config_now logging_getattr s :
  fst (reload_config load_config_now logging_getattr s) = Return tt
  /\ ProxyServer.request_counts
       (snd (reload_config load_config_now logging_getattr s))
     = ProxyServer.request_counts s.
Proof.
  unfold reload_config, try_except, bind, get, lift, logger, emit, modify.
  destruct (load_config_now _ _) as [new_config|e]; cbn; [| auto].
  destruct (logging_getattr _) as [[z|name|]|e]; cbn;
    [| destruct (_nameToLevel name); cbn | |]; auto.
Qed.

(** X23: an event on a directory changes nothing, and its path is not
    resolved.  The path of any other event is resolved: an exception of
    the resolution leaves the handler, with the server as it was; a path
    other than the configuration's changes nothing; the configuration's
    path is a reload, which returns.  The handler raises nothing else, and
    in no case resets a counter. *)
Theorem on_modified_outcome resolve load_config_now logging_getattr
  handler_config_path event s :
  let after :=
    on_modified resolve load_config_now logging_getattr handler_config_path
      event s in
  ProxyServer.request_counts (snd after) = ProxyServer.request_counts s
  /\ after
     = if FileEvent.is_directory event then (Return tt, s)
       else
         match resolve (FileEvent.src_path event) with
         | Raise e => (Raise e, s)
         | Return src_path =>
             if String.eqb src_path handler_config_path
             then (Return tt,
                   snd (reload_config load_config_now logging_getattr s))
             else (Return tt, s)
         end.
Proof.
  cbv zeta. unfold on_modified.
  destruct (FileEvent.is_directory event); [split; reflexivity |].
  unfold bind, lift.
  destruct (resolve (FileEvent.src_path event)) as [src_path|e];
    [| split; reflexivity].
  destruct (String.eqb src_path handler_config_path); [| split; reflexivity].
  destruct (reload_config_returns load_config_now logging_getattr s)
    as (H1 & H2).
  split; [exact H2 |].
  destruct (reload_config load_config_now logging_getattr s) as [o s'].
  cbn [fst snd] in *. now rewrite H1.
Qed.

(** ** Summaries *)

(** X1: endpoint matching has three outcomes.  It returns an endpoint exactly
    when that endpoint qualifies and every endpoint declared before it was
    passed over; it returns none exactly when every endpoint was passed
    over; it raises exactly when some pattern cannot be matched and every
    endpoint before that one was passed over. *)
Theorem first_matching_outcome re_match_other endpoints path method :
  (forall e,
      first_matching re_match_other endpoints path method = Return (Some e)
      <-> exists before after,
            endpoints = (before ++ e :: after)%list
            /\ Forall (passed_over re_match_other path method) before
            /\ qualifies re_match_other path method e)
  /\ (first_matching re_match_other endpoints path method = Return None
      <-> Forall (passed_over re_match_other path method) endpoints)
  /\ (forall x,
         first_matching re_match_other endpoints path method = Raise x
         <-> exists before e after,
               endpoints = (before ++ e :: after)%list
               /\ Forall (passed_over re_match_other path method) before
               /\ _path_matches re_match_other (Endpoint.path e) path
                  = Raise x).
Proof.
  split; [| split].
  - intros e. apply first_matching_some.
  - apply first_matching_none.
  - intros x. apply first_matching_raise_iff.
Qed.

(** X2: a rule fires only for a request its method constraint admits, and
    only on the invocation that brings the counter of the request's key
    to its [count] and to a multiple of its [every], those that are set
    and not zero. *)
Theorem rule_fires_only_when random_random c method path s :
  fst (constraint_checks random_random c method path s) = Return true ->
  let v :=
    counter (snd (constraint_checks random_random c method path s))
      (key_of method path) in
  method_differs c method = false
  /\ v = counter s (key_of method path) + 1
  /\ (forall n, FailureCondition.count c = Some n -> n <> 0 -> v = n)
  /\ (forall e, FailureCondition.every c = Some e -> e <> 0 -> v mod e = 0).
Proof.
  intros Hf. cbv zeta.
  pose proof (checks_fire random_random c method path s Hf) as (Hm & _ & _).
  split; [exact Hm | split; [| split]].
  - now rewrite checks_counter, Hm.
  - intros n Hn Hz. now apply count_fires_at_count.
  - intros e He Hz. now apply every_fires_on_multiples.
Qed.

Lemma rule_fires_only_when_witness :
  let c := only (Some "get") (Some 1) (Some 1) None in
  let s := started (config_of []) in
  let v := counter (snd (constraint_checks one_half c "GET" "/x" s))
             (key_of "GET" "/x") in
  method_differs c "GET" = false
  /\ v = counter s (key_of "GET" "/x") + 1
  /\ (forall n, FailureCondition.count c = Some n -> n <> 0 -> v = n)
  /\ (forall e, FailureCondition.every c = Some e -> e <> 0 -> v mod e = 0).
Proof.
  apply (rule_fires_only_when one_half (only (Some "get") (Some 1) (Some 1) None)
           "GET" "/x" (started (config_of []))).
  reflexivity.
Defined.

(** X3: when the method constraint is satisfied, the value drawn (if one is)
    does not exceed the probability and the delay (if any) is from 0 to
    [longest_delay] milliseconds, the rule fires exactly when its [count]
    and [every] constraints hold of the incremented counter. *)
Theorem checks_decide random_random c method path s :
  method_differs c method = false ->
  chance_passes random_random c s ->
  delay_valid c ->
  fst (constraint_checks random_random c method path s)
  = Return (count_holds c (counter s (key_of method path) + 1)
            && every_holds c (counter s (key_of method path) + 1)).
Proof.
  intros H Hp Hd. enter_checks H.
  unfold count_holds, every_holds, chance_passes, delay_valid, key_of in *.
  repeat (case_step; simpl); settle;
    try (destruct Hp; congruence);
    try (rewrite sleep_length_valid in * by lia; discriminate);
    try (sleep_range; lia).
Qed.

Lemma checks_decide_witness :
  let c := FailureCondition.mk (Some "get") (Some 2) None (Some (3 # 4))
             (Some 250) in
  fst (constraint_checks one_half c "GET" "/x" (started (config_of [])))
  = Return
      (count_holds c (counter (started (config_of [])) (key_of "GET" "/x") + 1)
       && every_holds c
            (counter (started (config_of [])) (key_of "GET" "/x") + 1)).
Proof.
  apply (checks_decide one_half
           (FailureCondition.mk (Some "get") (Some 2) None (Some (3 # 4))
              (Some 250)) "GET" "/x" (started (config_of []))).
  - reflexivity.
  - right. reflexivity.
  - unfold delay_valid, longest_delay. cbn. lia.
Defined.

Lemma checks_sleep_when_firing_witness :
  let c := FailureCondition.mk None None None None (Some 250) in
  let s := started (config_of []) in
  ProxyServer.events (snd (constraint_checks one_half c "GET" "/x" s))
  = (ProxyServer.events s ++ slept c)%list.
Proof.
  apply (checks_sleep_when_firing one_half
           (FailureCondition.mk None None None None (Some 250)) "GET" "/x"
           (started (config_of []))).
  reflexivity.
Defined.

(** X12: the rule loop stops at the first rule that fires: when the rules
    before it do not fire, it answers with that rule's response and logs
    the injection, and the rules after it are not evaluated, whatever they
    are. *)
Theorem rule_loop_stops_at_first_firing injector before rule after method path
  s s1 s2 :
  inject_first injector before method path s = (Return None, s1) ->
  injector rule method path s1 = (Return true, s2) ->
  inject_first injector (before ++ rule :: after)%list method path s
  = (Return (Some (response_of rule)),
     ProxyServer.add_event (injection_logged rule method path) s2).
Proof.
  intros Hb Hr. apply inject_first_fires.
  exists before, rule, after, s1, s2. repeat split; assumption.
Qed.

Lemma rule_loop_stops_at_first_firing_witness :
  let quiet := FailureRule.mk (only None (Some 5) None None) boom in
  let firing := FailureRule.mk (only None None None None) boom in
  let s := started (config_of []) in
  inject_first (checks_of_rule one_half) ([quiet] ++ firing :: [quiet])%list
    "GET" "/x" s
  = (Return (Some (response_of firing)),
     ProxyServer.add_event (injection_logged firing "GET" "/x")
       (bump "GET:/x" (bump "GET:/x" s))).
Proof.
  apply (rule_loop_stops_at_first_firing (checks_of_rule one_half)
           [FailureRule.mk (only None (Some 5) None None) boom]
           (FailureRule.mk (only None None None None) boom)
           [FailureRule.mk (only None (Some 5) None None) boom]
           "GET" "/x" (started (config_of []))
           (bump "GET:/x" (started (config_of [])))
           (bump "GET:/x" (bump "GET:/x" (started (config_of []))))).
  - reflexivity.
  - reflexivity.
Defined.

(** ** Debug logging *)

Lemma unlogged_app evs1 evs2 :
  unlogged (evs1 ++ evs2)%list = (unlogged evs1 ++ unlogged evs2)%list.
Proof.
  induction evs1 as [|[m msg|q|r] evs1 IH]; cbn [unlogged app];
    [reflexivity | exact IH | now rewrite IH | now rewrite IH].
Qed.

Lemma set_events_own s : set_events (ProxyServer.events s) s = s.
Proof. now destruct s. Qed.

Lemma same_core s s' :
  core s = core s' -> s' = set_events (ProxyServer.events s') s.
Proof.
  destruct s, s'. unfold core, set_events. cbn. now intros [= -> -> -> -> ->].
Qed.

Section Debug.

Variable random_random : nat -> Q.
Variable client_request :
  list event -> ClientRequest.t -> Outcome ClientResponse.t.
Variable utf8_decode : list Byte.byte -> option string.

(** The checks do not read the record of effects: on another record they
    decide the same and add the same. *)
Lemma checks_frame c method path evs s :
  constraint_checks random_random c method path (set_events evs s)
  = (fst (constraint_checks random_random c method path s),
     set_events
       (evs ++ match fst (constraint_checks random_random c method path s) with
               | Return true => slept c
               | _ => []
               end)
       (snd (constraint_checks random_random c method path s))).
Proof.
  destruct (method_differs c method) eqn:H.
  - rewrite !checks_skip by assumption. cbn. now rewrite app_nil_r.
  - unfold constraint_checks. rewrite H, !increment_runs.
    destruct s as [cfg cp counts lvl dr ev].
    unfold bind, ret, draw_random, sleep, emit, modify, raise, truthy, slept,
      getitem_count, bump, set_events, counter.
    cbn [ProxyServer.request_counts ProxyServer.set_request_counts
         ProxyServer.config ProxyServer.config_path ProxyServer.logger_level
         ProxyServer.draws ProxyServer.events ProxyServer.set_draws
         ProxyServer.add_event].
    rewrite ?lookup_insert_eq.
    repeat (match goal with
            | |- context [match ?x with _ => _ end] =>
                match type of x with
                | option _ => destruct x eqn:?
                | bool => destruct x eqn:?
                end
            end;
            cbn [fst snd ProxyServer.request_counts
                 ProxyServer.set_request_counts ProxyServer.config
                 ProxyServer.config_path ProxyServer.logger_level
                 ProxyServer.draws ProxyServer.events ProxyServer.set_draws
                 ProxyServer.add_event];
            rewrite ?lookup_insert_eq);
      unfold ProxyServer.add_event, ProxyServer.set_draws,
        ProxyServer.set_request_counts;
      cbn [ProxyServer.request_counts ProxyServer.config
           ProxyServer.config_path ProxyServer.logger_level
           ProxyServer.draws ProxyServer.events negb];
      rewrite ?app_nil_r; try reflexivity; try discriminate; try congruence.
Qed.

Lemma core_set_events evs s : core (set_events evs s) = core s.
Proof. reflexivity. Qed.

(** Two servers that differ in their log lines only: the same
    configuration, counters, level and draws, and the same effects other
    than log lines. *)
Lemma checks_related c method path s s' :
  core s = core s' ->
  unlogged (ProxyServer.events s) = unlogged (ProxyServer.events s') ->
  fst (constraint_checks random_random c method path s')
  = fst (constraint_checks random_random c method path s)
  /\ core (snd (constraint_checks random_random c method path s'))
     = core (snd (constraint_checks random_random c method path s))
  /\ unlogged
       (ProxyServer.events
          (snd (constraint_checks random_random c method path s')))
     = unlogged
         (ProxyServer.events
            (snd (constraint_checks random_random c method path s))).
Proof.
  intros Hc Hu. rewrite (same_core s s' Hc), checks_frame. cbn [fst snd].
  split; [reflexivity | split; [apply core_set_events |]].
  cbn [set_events ProxyServer.events].
  rewrite (checks_events_grow random_random c method path s).
  now rewrite !unlogged_app, Hu.
Qed.

Lemma loop_related rules method path s s' :
  core s = core s' ->
  unlogged (ProxyServer.events s) = unlogged (ProxyServer.events s') ->
  fst (inject_first (checks_of_rule random_random) rules method path s')
  = fst (inject_first (checks_of_rule random_random) rules method path s)
  /\ core (snd (inject_first (checks_of_rule random_random) rules method path
                  s'))
     = core (snd (inject_first (checks_of_rule random_random) rules method
                    path s))
  /\ unlogged
       (ProxyServer.events
          (snd (inject_first (checks_of_rule random_random) rules method path
                  s')))
     = unlogged
         (ProxyServer.events
            (snd (inject_first (checks_of_rule random_random) rules method
                    path s))).
Proof.
  revert s s'. induction rules as [|rule rules IH]; intros s s' Hc Hu.
  - cbn. auto.
  - rewrite !inject_first_cons.
    destruct (checks_related (FailureRule.condition rule) method path s s'
                Hc Hu) as (H1 & H2 & H3).
    change (checks_of_rule random_random rule method path s)
      with (constraint_checks random_random (FailureRule.condition rule)
              method path s).
    change (checks_of_rule random_random rule method path s')
      with (constraint_checks random_random (FailureRule.condition rule)
              method path s').
    destruct (constraint_checks _ _ _ _ s) as [o1 t1].
    destruct (constraint_checks _ _ _ _ s') as [o1' t1'].
    cbn [fst snd] in H1, H2, H3. subst o1'.
    destruct o1 as [[|]|e]; cbn [fst snd].
    + split; [reflexivity | split].
      * now rewrite !core_add_event.
      * cbn [ProxyServer.add_event ProxyServer.events].
        rewrite !unlogged_app. cbn [unlogged injection_logged].
        now rewrite H3.
    + apply IH; auto.
    + auto.
Qed.

Lemma unlogged_sending endpoint request call :
  unlogged (sending_logged endpoint request call) = [].
Proof.
  unfold sending_logged. destruct (Endpoint.debug endpoint); [| reflexivity].
  now destruct (Request.query_params request).
Qed.

Lemma unlogged_response endpoint r :
  unlogged (response_logged utf8_decode endpoint r) = [].
Proof.
  unfold response_logged. destruct (Endpoint.debug endpoint); [| reflexivity].
  now destruct (ClientResponse.content r).
Qed.

Hypothesis backend_cannot_see_the_log :
  forall evs evs' call,
    unlogged evs = unlogged evs' ->
    client_request evs call = client_request evs' call.

Lemma forward_related e e' t request path method body s s' :
  core s = core s' ->
  unlogged (ProxyServer.events s) = unlogged (ProxyServer.events s') ->
  let after :=
    forward client_request utf8_decode e (ATarget t) request path method body
      s in
  let after' :=
    forward client_request utf8_decode e' (ATarget t) request path method body
      s' in
  fst after' = fst after
  /\ core (snd after') = core (snd after)
  /\ unlogged (ProxyServer.events (snd after'))
     = unlogged (ProxyServer.events (snd after)).
Proof.
  intros Hc Hu. cbv zeta. rewrite !forward_runs. cbv zeta.
  set (call := outbound_call t request path method body).
  assert (Hs : unlogged
                 (ProxyServer.events
                    (add_events (sending_logged e request call) s))
               = unlogged
                   (ProxyServer.events
                      (add_events (sending_logged e' request call) s'))).
  { now rewrite !events_add_events, !unlogged_app, !unlogged_sending, Hu. }
  rewrite (backend_cannot_see_the_log _ _ call Hs).
  destruct (client_request _ call) as [r|x]; [| destruct x]; cbn [fst snd];
    (split; [reflexivity | split]);
    rewrite ?core_add_events, ?core_add_event, ?core_add_events;
    try exact (eq_sym Hc);
    rewrite ?events_add_events;
    cbn [ProxyServer.add_event ProxyServer.events];
    rewrite ?events_add_events, !unlogged_app, ?unlogged_sending,
      ?unlogged_response, Hu; reflexivity.
Qed.


End Debug.


(** ** The probability test *)

(** X5: a probability of zero is not a constraint: the rule behaves in every
    respect as if it had no probability, and no value is drawn. *)
Theorem probability_zero_is_not_tested random_random c p method path s :
  FailureCondition.probability c = Some p ->
  Qeq_bool p 0 = true ->
  constraint_checks random_random c method path s
  = constraint_checks random_random (without_probability c) method path s.
Proof.
  intros Hp Hz. unfold constraint_checks, method_differs, without_probability.
  cbn [FailureCondition.method FailureCondition.count FailureCondition.every
       FailureCondition.probability FailureCondition.delay].
  rewrite Hp. cbn [truthy]. rewrite Hz. reflexivity.
Qed.

Lemma probability_zero_is_not_tested_witness :
  constraint_checks one_half (only None None (Some 2) (Some 0%Q)) "GET" "/x"
    (started (config_of []))
  = constraint_checks one_half
      (without_probability (only None None (Some 2) (Some 0%Q))) "GET" "/x"
      (started (config_of [])).
Proof.
  apply (probability_zero_is_not_tested one_half
           (only None None (Some 2) (Some 0%Q)) 0%Q "GET" "/x"
           (started (config_of []))); reflexivity.
Defined.

(** X6: a probability of one or more never vetoes: the generator drawing
    below one and the delay (if any) being from 0 to [longest_delay]
    milliseconds, the rule fires exactly when its other constraints
    hold. *)
Theorem probability_one_never_vetoes random_random c p method path s :
  (forall n, random_random n < 1)%Q ->
  FailureCondition.probability c = Some p ->
  (1 <= p)%Q ->
  method_differs c method = false ->
  delay_valid c ->
  fst (constraint_checks random_random c method path s)
  = Return (count_holds c (counter s (key_of method path) + 1)
            && every_holds c (counter s (key_of method path) + 1)).
Proof.
  intros Hr Hp H1 Hm Hd. apply checks_outcome; try assumption.
  unfold chance_passes. rewrite Hp. right. apply Qle_bool_iff.
  apply Qlt_le_weak. eapply Qlt_le_trans; [apply Hr | exact H1].
Qed.

Lemma probability_one_never_vetoes_witness :
  let c := only None None (Some 1) (Some 1%Q) in
  fst (constraint_checks one_half c "GET" "/x" (started (config_of [])))
  = Return
      (count_holds c (counter (started (config_of [])) (key_of "GET" "/x") + 1)
       && every_holds c
            (counter (started (config_of [])) (key_of "GET" "/x") + 1)).
Proof.
  apply (probability_one_never_vetoes one_half
           (only None None (Some 1) (Some 1%Q)) 1%Q "GET" "/x"
           (started (config_of []))).
  - intros n. reflexivity.
  - reflexivity.
  - discriminate.
  - reflexivity.
  - exact I.
Defined.
